(** * Freehand-contour annotation engine

    A shallow embedding of the per-frame-of-reference annotation store
    (FrameOfReferenceSpecificAnnotationManager.ts), of the contour drawing
    loop of the planar freehand tool (drawLoop) and of drawRect.

    Conventions of the embedding.
    - JavaScript objects and arrays are mutable and shared by reference, so
      they live in a heap and are named by locations.  The heap has one
      region per TypeScript type of the store: [Annotation], [Annotations],
      [FrameOfReferenceSpecificAnnotations] and [AnnotationState].
    - An object used as a dictionary is an association list in insertion
      order; [Object_keys] lists the array-index keys first, in numeric
      order, as JavaScript does.
    - Numbers are exact rationals ([Qc]); NaN, the infinities and rounding
      are not part of the model.
    - A call either returns, or throws the [TypeError] of a property read on
      [undefined], or is [Untyped]: the heap lacks a cell that the
      TypeScript types promise. *)

From Stdlib Require Import Ascii QArith Qcanon Qround Lqa.
From stdpp Require Import base option list strings numbers.

(** ** JavaScript values and dictionaries *)
Module Js.

Inductive outcome (A : Type) : Type :=
  | Done (a : A)
  | TypeError
  | Untyped.
Arguments Done {A} a.
Arguments TypeError {A}.
Arguments Untyped {A}.

#[export] Instance outcome_ret : MRet outcome := @Done.
#[export] Instance outcome_bind : MBind outcome := λ A B f x,
  match x with
  | Done a => f a
  | TypeError => TypeError
  | Untyped => Untyped
  end.

(** A cell the types promise: its absence is a modelling gap, not a throw. *)
Definition typed {A} (o : option A) : outcome A :=
  match o with Some a => Done a | None => Untyped end.

(** Reading a property of [undefined] throws. *)
Definition defined {A} (o : option A) : outcome A :=
  match o with Some a => Done a | None => TypeError end.

Definition returns {A} (x : outcome A) : Prop :=
  match x with Done _ => True | _ => False end.

(** Truthiness of an optional string argument: [undefined] and the empty
    string are falsy; a truthy argument is handed on. *)
Definition truthy (s : option string) : option string :=
  match s with
  | Some s => if decide (s = EmptyString) then None else Some s
  | None => None
  end.

Abbreviation loc := nat.

(** *** Dictionaries *)
Abbreviation obj V := (list (string * V)).

Fixpoint obj_get {V} (k : string) (o : obj V) : option V :=
  match o with
  | [] => None
  | (k', v) :: o' => if decide (k' = k) then Some v else obj_get k o'
  end.

(** [o[k] = v]: an existing key keeps its place, a new key goes last. *)
Fixpoint obj_set {V} (k : string) (v : V) (o : obj V) : obj V :=
  match o with
  | [] => [(k, v)]
  | (k', v') :: o' =>
      if decide (k' = k) then (k, v) :: o' else (k', v') :: obj_set k v o'
  end.

(** [delete o[k]]. *)
Definition obj_delete {V} (k : string) (o : obj V) : obj V :=
  filter (λ kv, kv.1 ≠ k) o.

(** Array indices are the canonical decimal strings below 2^32 - 1. *)
Definition digit_of (c : ascii) : option N :=
  let n := N_of_ascii c in
  if ((48 <=? n) && (n <=? 57))%N then Some (n - 48)%N else None.

Fixpoint digits_value (acc : N) (s : string) : option N :=
  match s with
  | EmptyString => Some acc
  | String c s' => d ← digit_of c; digits_value (acc * 10 + d)%N s'
  end.

Definition array_index (s : string) : option N :=
  match s with
  | EmptyString => None
  | String "0"%char EmptyString => Some 0%N
  | String "0"%char _ => None
  | _ => n ← digits_value 0 s; if (n <? 4294967295)%N then Some n else None
  end.

Fixpoint insert_index (x : N * string) (l : list (N * string)) :
    list (N * string) :=
  match l with
  | [] => [x]
  | y :: l' => if (x.1 <? y.1)%N then x :: l else y :: insert_index x l'
  end.

Definition sort_index (l : list (N * string)) : list (N * string) :=
  foldr insert_index [] l.

(** [Object.keys(o)]. *)
Definition Object_keys {V} (o : obj V) : list string :=
  (sort_index (omap (λ k, (λ n, (n, k)) <$> array_index k) o.*1)).*2
  ++ filter (λ k, array_index k = None) o.*1.

(** *** Numbers *)
Definition Math_abs (x : Qc) : Qc := if decide (x < 0)%Qc then (- x)%Qc else x.
Definition Math_min (x y : Qc) : Qc := if decide (y < x)%Qc then y else x.

Definition Point2 : Type := Qc * Qc.
Definition Point3 : Type := Qc * Qc * Qc.

(** gl-matrix [vec3.subtract] and [vec3.dot]. *)
Definition vec3_subtract (a b : Point3) : Point3 :=
  let '(a0, a1, a2) := a in
  let '(b0, b1, b2) := b in
  (a0 - b0, a1 - b1, a2 - b2)%Qc.

Definition vec3_dot (a b : Point3) : Qc :=
  let '(a0, a1, a2) := a in
  let '(b0, b1, b2) := b in
  (a0 * b0 + a1 * b1 + a2 * b2)%Qc.

(** [Array.prototype.pop] and [Array.prototype.shift], as seen on the array. *)
Definition pop {A} (l : list A) : list A := removelast l.
Definition shift {A} (l : list A) : list A := tail l.

(** [a.splice(i, 1)]: the array without its element [i]. *)
Definition splice1 {A} (i : nat) (l : list A) : list A := delete i l.

End Js.
Export Js.

(** ** Annotation records (types/AnnotationTypes) *)
Module Types.

Record Metadata := {
  FrameOfReferenceUID : string;
  toolName : string;
  viewPlaneNormal : Point3;
  viewUp : Point3;
  referencedImageId : option string;
}.

Record Handles := {
  points : list (option Point3);
  activeHandleIndex : option nat;
}.

Record Data := {
  handles : Handles;
  polyline : list Point3;
  isOpenContour : option bool;
  isOpenUShapeContour : option bool;
  openUShapeContourVectorToPeak : option (list Point3);
  label : string;
}.

Record Annotation := {
  annotationUID : option string;
  highlighted : option bool;
  invalidated : option bool;
  isLocked : option bool;
  isVisible : option bool;
  metadata : Metadata;
  data : Data;
}.

Definition set_annotationUID (u : option string) (a : Annotation) :=
  {| annotationUID := u; highlighted := highlighted a;
     invalidated := invalidated a; isLocked := isLocked a;
     isVisible := isVisible a; metadata := metadata a; data := data a |}.

Definition set_invalidated (b : option bool) (a : Annotation) :=
  {| annotationUID := annotationUID a; highlighted := highlighted a;
     invalidated := b; isLocked := isLocked a;
     isVisible := isVisible a; metadata := metadata a; data := data a |}.

Definition set_isLocked (b : option bool) (a : Annotation) :=
  {| annotationUID := annotationUID a; highlighted := highlighted a;
     invalidated := invalidated a; isLocked := b;
     isVisible := isVisible a; metadata := metadata a; data := data a |}.

Definition set_isVisible (b : option bool) (a : Annotation) :=
  {| annotationUID := annotationUID a; highlighted := highlighted a;
     invalidated := invalidated a; isLocked := isLocked a;
     isVisible := b; metadata := metadata a; data := data a |}.

Definition set_data (d : Data) (a : Annotation) :=
  {| annotationUID := annotationUID a; highlighted := highlighted a;
     invalidated := invalidated a; isLocked := isLocked a;
     isVisible := isVisible a; metadata := metadata a; data := d |}.

Definition set_polyline (p : list Point3) (d : Data) :=
  {| handles := handles d; polyline := p; isOpenContour := isOpenContour d;
     isOpenUShapeContour := isOpenUShapeContour d;
     openUShapeContourVectorToPeak := openUShapeContourVectorToPeak d;
     label := label d |}.

Definition set_isOpenContour (b : option bool) (d : Data) :=
  {| handles := handles d; polyline := polyline d; isOpenContour := b;
     isOpenUShapeContour := isOpenUShapeContour d;
     openUShapeContourVectorToPeak := openUShapeContourVectorToPeak d;
     label := label d |}.

Definition set_handles_points (ps : list (option Point3)) (d : Data) :=
  {| handles := {| points := ps;
                   activeHandleIndex := activeHandleIndex (handles d) |};
     polyline := polyline d; isOpenContour := isOpenContour d;
     isOpenUShapeContour := isOpenUShapeContour d;
     openUShapeContourVectorToPeak := openUShapeContourVectorToPeak d;
     label := label d |}.

Definition set_vectorToPeak (v : option (list Point3)) (d : Data) :=
  {| handles := handles d; polyline := polyline d;
     isOpenContour := isOpenContour d;
     isOpenUShapeContour := isOpenUShapeContour d;
     openUShapeContourVectorToPeak := v;
     label := label d |}.

(** The three shapes [saveAnnotations] returns and [restoreAnnotations]
    accepts: [AnnotationState | FrameOfReferenceSpecificAnnotations |
    Annotations]. *)
Inductive ref :=
  | RefState (l : loc)
  | RefFrame (l : loc)
  | RefAnnotations (l : loc).

End Types.
Export Types.

(** ** The heap *)
Module Heap.

Record heap := {
  anns : list Annotation;
  arrs : list (list loc);
  frames : list (obj loc);
  states : list (obj loc);
}.

Definition empty : heap :=
  {| anns := []; arrs := []; frames := []; states := [] |}.

Definition with_anns (v : list Annotation) (h : heap) : heap :=
  {| anns := v; arrs := arrs h; frames := frames h; states := states h |}.
Definition with_arrs (v : list (list loc)) (h : heap) : heap :=
  {| anns := anns h; arrs := v; frames := frames h; states := states h |}.
Definition with_frames (v : list (obj loc)) (h : heap) : heap :=
  {| anns := anns h; arrs := arrs h; frames := v; states := states h |}.
Definition with_states (v : list (obj loc)) (h : heap) : heap :=
  {| anns := anns h; arrs := arrs h; frames := frames h; states := v |}.

(** Allocation of a fresh object in each region. *)
Definition new_ann (a : Annotation) (h : heap) : loc * heap :=
  (length (anns h), with_anns (anns h ++ [a]) h).
Definition new_arr (xs : list loc) (h : heap) : loc * heap :=
  (length (arrs h), with_arrs (arrs h ++ [xs]) h).
Definition new_frame (o : obj loc) (h : heap) : loc * heap :=
  (length (frames h), with_frames (frames h ++ [o]) h).
Definition new_state (o : obj loc) (h : heap) : loc * heap :=
  (length (states h), with_states (states h ++ [o]) h).

(** In-place update of an existing object. *)
Definition put_ann (l : loc) (a : Annotation) (h : heap) : heap :=
  with_anns (<[l := a]> (anns h)) h.
Definition put_arr (l : loc) (xs : list loc) (h : heap) : heap :=
  with_arrs (<[l := xs]> (arrs h)) h.
Definition put_frame (l : loc) (o : obj loc) (h : heap) : heap :=
  with_frames (<[l := o]> (frames h)) h.
Definition put_state (l : loc) (o : obj loc) (h : heap) : heap :=
  with_states (<[l := o]> (states h)) h.

(** *** lodash [cloneDeep]

    An external library: it returns a recursive copy made of new objects.
    The model copies level by level along the types of the store.  An
    object reached along two paths is copied once per path here and once
    in all by lodash; the deep value of the copy and the freshness of its
    objects do not depend on that. *)
Fixpoint cloneDeep_each (xs : list loc) (h : heap) :
    outcome (list loc * heap) :=
  match xs with
  | [] => Done ([], h)
  | l :: xs' =>
      a ← typed (anns h !! l);
      let '(l', h1) := new_ann a h in
      '(ls, h2) ← cloneDeep_each xs' h1;
      Done (l' :: ls, h2)
  end.

Definition cloneDeep_annotations (l : loc) (h : heap) : outcome (loc * heap) :=
  xs ← typed (arrs h !! l);
  '(xs', h1) ← cloneDeep_each xs h;
  Done (new_arr xs' h1).

Fixpoint cloneDeep_tools (o : obj loc) (h : heap) :
    outcome (obj loc * heap) :=
  match o with
  | [] => Done ([], h)
  | (k, l) :: o' =>
      '(l', h1) ← cloneDeep_annotations l h;
      '(o'', h2) ← cloneDeep_tools o' h1;
      Done ((k, l') :: o'', h2)
  end.

Definition cloneDeep_frame (l : loc) (h : heap) : outcome (loc * heap) :=
  o ← typed (frames h !! l);
  '(o', h1) ← cloneDeep_tools o h;
  Done (new_frame o' h1).

Fixpoint cloneDeep_frames (o : obj loc) (h : heap) :
    outcome (obj loc * heap) :=
  match o with
  | [] => Done ([], h)
  | (k, l) :: o' =>
      '(l', h1) ← cloneDeep_frame l h;
      '(o'', h2) ← cloneDeep_frames o' h1;
      Done ((k, l') :: o'', h2)
  end.

Definition cloneDeep_state (l : loc) (h : heap) : outcome (loc * heap) :=
  o ← typed (states h !! l);
  '(o', h1) ← cloneDeep_frames o h;
  Done (new_state o' h1).

(** *** Deep values

    What a deep comparison of two structures looks at: the nested
    dictionaries with the records they hold, without the locations. *)
Abbreviation Annotations := (list Annotation).
Abbreviation FrameOfReferenceSpecificAnnotations := (obj Annotations).
Abbreviation AnnotationState := (obj FrameOfReferenceSpecificAnnotations).

Definition deep_annotations (h : heap) (l : loc) : option Annotations :=
  xs ← arrs h !! l; mapM (λ x, anns h !! x) xs.

Definition deep_frame (h : heap) (l : loc) :
    option FrameOfReferenceSpecificAnnotations :=
  o ← frames h !! l;
  mapM (λ kv, (λ v, (kv.1, v)) <$> deep_annotations h kv.2) o.

Definition deep_state (h : heap) (l : loc) : option AnnotationState :=
  o ← states h !! l;
  mapM (λ kv, (λ v, (kv.1, v)) <$> deep_frame h kv.2) o.

End Heap.
Export Heap.

(** ** FrameOfReferenceSpecificAnnotationManager *)
Module Manager.

Record manager := {
  annotations : loc;
  uid : string;
}.

Record FilterInterface := {
  filter_FrameOfReferenceUID : option string;
  filter_toolName : option string;
}.

(** The default value [{}] of the [filter] argument. *)
Definition no_filter : FilterInterface :=
  {| filter_FrameOfReferenceUID := None; filter_toolName := None |}.

(** [new FrameOfReferenceSpecificAnnotationManager(uid)] *)
Definition create (uid : string) (h : heap) : manager * heap :=
  let '(l, h1) := new_state [] h in
  ({| annotations := l; uid := uid |}, h1).

(** *** [_imageVolumeModifiedHandler] *)
Fixpoint invalidate_each (xs : list loc) (h : heap) : outcome heap :=
  match xs with
  | [] => Done h
  | l :: xs' =>
      a ← typed (anns h !! l);
      invalidate_each xs'
        match invalidated a with
        | Some _ => put_ann l (set_invalidated (Some true) a) h
        | None => h
        end
  end.

Fixpoint invalidate_tools (fl : loc) (toolNames : list string) (h : heap) :
    outcome heap :=
  match toolNames with
  | [] => Done h
  | toolName :: rest =>
      o ← typed (frames h !! fl);
      la ← defined (obj_get toolName o);
      xs ← typed (arrs h !! la);
      h1 ← invalidate_each xs h;
      invalidate_tools fl rest h1
  end.

Definition _imageVolumeModifiedHandler (m : manager)
    (FrameOfReferenceUID : string) (h : heap) : outcome heap :=
  root ← typed (states h !! annotations m);
  match obj_get FrameOfReferenceUID root with
  | None => Done h
  | Some fl =>
      o ← typed (frames h !! fl);
      invalidate_tools fl (Object_keys o) h
  end.


Definition getFrameOfReferenceAnnotations (m : manager)
    (FrameOfReferenceUID : string) (h : heap) : outcome (option loc) :=
  root ← typed (states h !! annotations m);
  Done (obj_get FrameOfReferenceUID root).

Definition get (m : manager) (FrameOfReferenceUID toolName : string)
    (h : heap) : outcome (option loc) :=
  root ← typed (states h !! annotations m);
  match obj_get FrameOfReferenceUID root with
  | None => Done None
  | Some fl =>
      o ← typed (frames h !! fl);
      Done (obj_get toolName o)
  end.

(** [toolSpecificAnnotations.findIndex(a => a.annotationUID === uid)];
    [None] stands for -1. *)
Fixpoint findIndex (h : heap) (annotationUID : option string)
    (xs : list loc) : outcome (option nat) :=
  match xs with
  | [] => Done None
  | l :: xs' =>
      a ← typed (anns h !! l);
      if decide (Types.annotationUID a = annotationUID) then Done (Some 0)
      else i ← findIndex h annotationUID xs'; Done (option_map S i)
  end.

(** The inner loop of [_getToolSpecificAnnotationsAndIndex], over
    [toolNameKeys].  [fs] is [annotations[frameOfReferenceUID]], which is
    [undefined] for a key the store does not hold. *)
Fixpoint scan_tools (h : heap) (annotationUID : option string)
    (fs : option loc) (toolNameKeys : list string) :
    outcome (option (loc * nat)) :=
  match toolNameKeys with
  | [] => Done None
  | toolName :: rest =>
      fl ← defined fs;
      o ← typed (frames h !! fl);
      la ← defined (obj_get toolName o);
      xs ← typed (arrs h !! la);
      index ← findIndex h annotationUID xs;
      match index with
      | Some i => Done (Some (la, i))
      | None => scan_tools h annotationUID fs rest
      end
  end.

Definition toolNameKeys_of (h : heap) (toolName : option string)
    (fs : option loc) : outcome (list string) :=
  match truthy toolName with
  | Some t => Done [t]
  | None =>
      fl ← defined fs;
      o ← typed (frames h !! fl);
      Done (Object_keys o)
  end.

(** The outer loop, over [frameOfReferenceUIDKeys]. *)
Fixpoint scan_frames (h : heap) (annotationUID toolName : option string)
    (root : obj loc) (frameOfReferenceUIDKeys : list string) :
    outcome (option (loc * nat)) :=
  match frameOfReferenceUIDKeys with
  | [] => Done None
  | frameOfReferenceUID :: rest =>
      let fs := obj_get frameOfReferenceUID root in
      toolNameKeys ← toolNameKeys_of h toolName fs;
      found ← scan_tools h annotationUID fs toolNameKeys;
      match found with
      | Some r => Done (Some r)
      | None => scan_frames h annotationUID toolName root rest
      end
  end.

Definition _getToolSpecificAnnotationsAndIndex (m : manager)
    (annotationUID : option string) (filter : FilterInterface) (h : heap) :
    outcome (option (loc * nat)) :=
  root ← typed (states h !! annotations m);
  scan_frames h annotationUID (filter_toolName filter) root
    match truthy (filter_FrameOfReferenceUID filter) with
    | Some f => [f]
    | None => Object_keys root
    end.

Definition getAnnotation (m : manager) (annotationUID : option string)
    (filter : FilterInterface) (h : heap) : outcome (option loc) :=
  found ← _getToolSpecificAnnotationsAndIndex m annotationUID filter h;
  match found with
  | None => Done None
  | Some (la, index) =>
      xs ← typed (arrs h !! la);
      Done (xs !! index)
  end.

(** *** [addAnnotation] *)

(** Modelled from the spec: annotationLocking.ts is not among the
    sources.  The spec names `locked` among the flags of a record that
    callers set; the helper is taken to define the flag, unlocked for a
    record that has none, and to leave the rest of the record alone. *)
Definition checkAndDefineIsLockedProperty (a : loc) (h : heap) :
    outcome heap :=
  ann ← typed (anns h !! a);
  Done (put_ann a (set_isLocked (Some (default false (isLocked ann))) ann) h).

(** Modelled from the spec: annotationVisibility.ts is not among the
    sources.  The spec names `visible` among the flags of a record that
    callers set; the helper is taken to define the flag, visible for a
    record that has none, and to leave the rest of the record alone. *)
Definition checkAndDefineIsVisibleProperty (a : loc) (h : heap) :
    outcome heap :=
  ann ← typed (anns h !! a);
  Done (put_ann a (set_isVisible (Some (default true (isVisible ann))) ann) h).

Definition addAnnotation (m : manager) (annotation : loc) (h : heap) :
    outcome heap :=
  ann ← typed (anns h !! annotation);
  let FrameOfReferenceUID := FrameOfReferenceUID (metadata ann) in
  let toolName := toolName (metadata ann) in
  root ← typed (states h !! annotations m);
  '(fl, h1) ←
    match obj_get FrameOfReferenceUID root with
    | Some fl => Done (fl, h)
    | None =>
        let '(fl, h1) := new_frame [] h in
        Done (fl, put_state (annotations m)
                    (obj_set FrameOfReferenceUID fl root) h1)
    end;
  o ← typed (frames h1 !! fl);
  '(la, h2) ←
    match obj_get toolName o with
    | Some la => Done (la, h1)
    | None =>
        let '(la, h2) := new_arr [] h1 in
        Done (la, put_frame fl (obj_set toolName la o) h2)
    end;
  xs ← typed (arrs h2 !! la);
  h3 ← checkAndDefineIsLockedProperty annotation
         (put_arr la (xs ++ [annotation]) h2);
  checkAndDefineIsVisibleProperty annotation h3.

(** *** [removeAnnotation] *)
Definition removeAnnotation (m : manager) (annotationUID : option string)
    (filter : FilterInterface) (h : heap) : outcome heap :=
  found ← _getToolSpecificAnnotationsAndIndex m annotationUID filter h;
  match found with
  | None => Done h
  | Some (la, index) =>
      xs ← typed (arrs h !! la);
      first ← defined (xs !! 0);
      ann ← typed (anns h !! first);
      let xs' := splice1 index xs in
      let h1 := put_arr la xs' h in
      if decide (length xs' = 0) then
        root ← typed (states h1 !! annotations m);
        fl ← defined (obj_get (FrameOfReferenceUID (metadata ann)) root);
        o ← typed (frames h1 !! fl);
        Done (put_frame fl (obj_delete (toolName (metadata ann)) o) h1)
      else Done h1
  end.

(** *** [saveAnnotations] and [restoreAnnotations] *)
Definition saveAnnotations (m : manager)
    (FrameOfReferenceUID toolName : option string) (h : heap) :
    outcome (option ref * heap) :=
  root ← typed (states h !! annotations m);
  match truthy FrameOfReferenceUID, truthy toolName with
  | Some f, Some t =>
      match obj_get f root with
      | None => Done (None, h)
      | Some fl =>
          o ← typed (frames h !! fl);
          match obj_get t o with
          | None => Done (None, h)
          | Some la =>
              '(l, h1) ← cloneDeep_annotations la h;
              Done (Some (RefAnnotations l), h1)
          end
      end
  | Some f, None =>
      match obj_get f root with
      | None => Done (None, h)
      | Some fl =>
          '(l, h1) ← cloneDeep_frame fl h;
          Done (Some (RefFrame l), h1)
      end
  | None, _ =>
      '(l, h1) ← cloneDeep_state (annotations m) h;
      Done (Some (RefState l), h1)
  end.

Definition restoreAnnotations (m : manager) (state : ref)
    (FrameOfReferenceUID toolName : option string) (h : heap) :
    outcome (manager * heap) :=
  root ← typed (states h !! annotations m);
  match truthy FrameOfReferenceUID, truthy toolName with
  | Some f, Some t =>
      '(fl, h1) ←
        match obj_get f root with
        | Some fl => Done (fl, h)
        | None =>
            let '(fl, h1) := new_frame [] h in
            Done (fl, put_state (annotations m) (obj_set f fl root) h1)
        end;
      match state with
      | RefAnnotations la =>
          o ← typed (frames h1 !! fl);
          Done (m, put_frame fl (obj_set t la o) h1)
      | _ => Untyped
      end
  | Some f, None =>
      match state with
      | RefFrame fl => Done (m, put_state (annotations m) (obj_set f fl root) h)
      | _ => Untyped
      end
  | None, _ =>
      match state with
      | RefState sl =>
          '(l, h1) ← cloneDeep_state sl h;
          Done ({| annotations := l; uid := uid m |}, h1)
      | _ => Untyped
      end
  end.

End Manager.
Export Manager.

(** ** The contour drawing loop (planarFreehandROITool/drawLoop) *)
Module DrawLoop.

Record Configuration := {
  allowOpenContours : bool;
  closeContourProximity : Qc;
  subPixelResolution : Qc;
}.

Record DrawData := {
  canvasPoints : list Point2;
  polylineIndex : nat;
}.

Record CommonData := {
  annotation : loc;
  viewportIdsToRender : list string;
  spacing : Qc * Qc;
  xDir : Point3;
  yDir : Point3;
}.

Record EditData := {
  prevCanvasPoints : list Point2;
  editCanvasPoints : list Point2;
}.

(** [evt.detail] of the normalised mouse events. *)
Record EventDetail := {
  currentPoints_world : Point3;
  currentPoints_canvas : Point2;
  lastPoints_canvas : Point2;
}.

Inductive notification :=
  | AnnotationCompleted (a : loc)
  | AnnotationRender (viewportIds : list string).

(** The viewport of the element and the utilities of [utilities/math/polyline],
    none of which is among the sources: they are parameters of the loop.
    [addCanvasPointsToArray] yields the points it pushes onto the array,
    and their number is what it returns. *)
Class Externals := {
  canvasToWorld : Point2 → Point3;
  worldToCanvas : Point3 → Point2;
  getFrameOfReferenceUID : string;
  camera_viewPlaneNormal : Point3;
  camera_viewUp : Point3;
  getReferencedImageId : Point3 → option string;
  getViewportIdsWithToolToRender : list string;
  getToolName : string;
  getSubPixelSpacingAndXYDirections : Qc → (Qc * Qc) * Point3 * Point3;
  addCanvasPointsToArray : list Point2 → Point2 → CommonData → list Point2;
  getFirstIntersectionWithPolyline :
    list Point2 → Point2 → Point2 → bool → option (nat * nat);
  pointsAreWithinCloseContourProximity : Point2 → Point2 → Qc → bool;
  findOpenUShapedContourVectorToPeak : list Point2 → list Point3;
}.

(** The tool instance together with what its callbacks reach: the heap, the
    default annotation manager, the global [state.isInteractingWithTool],
    the listeners and cursor of the element, and what has been triggered. *)
Record World := {
  heap_of : heap;
  manager_of : manager;
  configuration : Configuration;
  isDrawing : bool;
  isEditingClosed : bool;
  isEditingOpen : bool;
  drawData : option DrawData;
  commonData : option CommonData;
  editData : option EditData;
  isInteractingWithTool : bool;
  drawListeners : bool;
  closedEditListeners : bool;
  cursorHidden : bool;
  triggered : list notification;
}.

Definition with_heap (v : heap) (w : World) : World :=
  {| heap_of := v; manager_of := manager_of w;
     configuration := configuration w; isDrawing := isDrawing w;
     isEditingClosed := isEditingClosed w; isEditingOpen := isEditingOpen w;
     drawData := drawData w; commonData := commonData w;
     editData := editData w;
     isInteractingWithTool := isInteractingWithTool w;
     drawListeners := drawListeners w;
     closedEditListeners := closedEditListeners w;
     cursorHidden := cursorHidden w; triggered := triggered w |}.

Definition with_isDrawing (v : bool) (w : World) : World :=
  {| heap_of := heap_of w; manager_of := manager_of w;
     configuration := configuration w; isDrawing := v;
     isEditingClosed := isEditingClosed w; isEditingOpen := isEditingOpen w;
     drawData := drawData w; commonData := commonData w;
     editData := editData w;
     isInteractingWithTool := isInteractingWithTool w;
     drawListeners := drawListeners w;
     closedEditListeners := closedEditListeners w;
     cursorHidden := cursorHidden w; triggered := triggered w |}.

Definition with_isEditingClosed (v : bool) (w : World) : World :=
  {| heap_of := heap_of w; manager_of := manager_of w;
     configuration := configuration w; isDrawing := isDrawing w;
     isEditingClosed := v; isEditingOpen := isEditingOpen w;
     drawData := drawData w; commonData := commonData w;
     editData := editData w;
     isInteractingWithTool := isInteractingWithTool w;
     drawListeners := drawListeners w;
     closedEditListeners := closedEditListeners w;
     cursorHidden := cursorHidden w; triggered := triggered w |}.

Definition with_drawData (v : option DrawData) (w : World) : World :=
  {| heap_of := heap_of w; manager_of := manager_of w;
     configuration := configuration w; isDrawing := isDrawing w;
     isEditingClosed := isEditingClosed w; isEditingOpen := isEditingOpen w;
     drawData := v; commonData := commonData w;
     editData := editData w;
     isInteractingWithTool := isInteractingWithTool w;
     drawListeners := drawListeners w;
     closedEditListeners := closedEditListeners w;
     cursorHidden := cursorHidden w; triggered := triggered w |}.

Definition with_commonData (v : option CommonData) (w : World) : World :=
  {| heap_of := heap_of w; manager_of := manager_of w;
     configuration := configuration w; isDrawing := isDrawing w;
     isEditingClosed := isEditingClosed w; isEditingOpen := isEditingOpen w;
     drawData := drawData w; commonData := v;
     editData := editData w;
     isInteractingWithTool := isInteractingWithTool w;
     drawListeners := drawListeners w;
     closedEditListeners := closedEditListeners w;
     cursorHidden := cursorHidden w; triggered := triggered w |}.

Definition with_editData (v : option EditData) (w : World) : World :=
  {| heap_of := heap_of w; manager_of := manager_of w;
     configuration := configuration w; isDrawing := isDrawing w;
     isEditingClosed := isEditingClosed w; isEditingOpen := isEditingOpen w;
     drawData := drawData w; commonData := commonData w;
     editData := v;
     isInteractingWithTool := isInteractingWithTool w;
     drawListeners := drawListeners w;
     closedEditListeners := closedEditListeners w;
     cursorHidden := cursorHidden w; triggered := triggered w |}.

(** [state.isInteractingWithTool], the three draw listeners of the element
    and its cursor change together. *)
Definition with_element (interacting draw edit hidden : bool) (w : World) :
    World :=
  {| heap_of := heap_of w; manager_of := manager_of w;
     configuration := configuration w; isDrawing := isDrawing w;
     isEditingClosed := isEditingClosed w; isEditingOpen := isEditingOpen w;
     drawData := drawData w; commonData := commonData w;
     editData := editData w;
     isInteractingWithTool := interacting;
     drawListeners := draw;
     closedEditListeners := edit;
     cursorHidden := hidden; triggered := triggered w |}.

Definition trigger (n : notification) (w : World) : World :=
  {| heap_of := heap_of w; manager_of := manager_of w;
     configuration := configuration w; isDrawing := isDrawing w;
     isEditingClosed := isEditingClosed w; isEditingOpen := isEditingOpen w;
     drawData := drawData w; commonData := commonData w;
     editData := editData w;
     isInteractingWithTool := isInteractingWithTool w;
     drawListeners := drawListeners w;
     closedEditListeners := closedEditListeners w;
     cursorHidden := cursorHidden w; triggered := triggered w ++ [n] |}.



Section Loop.
Context `{Externals}.

Definition activateDraw (evt : EventDetail) (annotation : loc)
    (viewportIdsToRender : list string) (w : World) : World :=
  let canvasPos := currentPoints_canvas evt in
  let '(spacing, xDir, yDir) :=
    getSubPixelSpacingAndXYDirections (subPixelResolution (configuration w)) in
  with_element true true (closedEditListeners w) true
    (with_commonData
       (Some {| annotation := annotation;
                viewportIdsToRender := viewportIdsToRender;
                spacing := spacing; xDir := xDir; yDir := yDir |})
       (with_drawData
          (Some {| canvasPoints := [canvasPos]; polylineIndex := 0 |})
          (with_isDrawing true w))).

Definition deactivateDraw (w : World) : World :=
  with_element false false (closedEditListeners w) false w.

(** Modelled from the spec: closedContourEditLoop.ts is not among the
    sources.  Spec 4.3, start of an edit of a closed contour: it `seeds the
    transient buffer with the contour's current canvas-projected points and
    enters EditingClosed`; like [activateDraw] it takes the interaction and
    installs its listeners. *)
Definition activateClosedContourEdit (evt : EventDetail) (annotation : loc)
    (viewportIdsToRender : list string) (w : World) : outcome World :=
  ann ← typed (anns (heap_of w) !! annotation);
  let canvasPos := currentPoints_canvas evt in
  let '(spacing, xDir, yDir) :=
    getSubPixelSpacingAndXYDirections (subPixelResolution (configuration w)) in
  Done
    (with_element true (drawListeners w) true true
       (with_commonData
          (Some {| annotation := annotation;
                   viewportIdsToRender := viewportIdsToRender;
                   spacing := spacing; xDir := xDir; yDir := yDir |})
          (with_editData
             (Some {| prevCanvasPoints :=
                        worldToCanvas <$> polyline (data ann);
                      editCanvasPoints := [canvasPos] |})
             (with_isEditingClosed true w)))).

(** Modelled from the spec: annotationState.ts is not among the sources.
    Spec 4.2 `add(annotation)`: the record, given the identifier [uid] when
    it has none, is inserted into its bucket of the store. *)
Definition state_addAnnotation (uid : string) (annotation : loc) (w : World) :
    outcome World :=
  ann ← typed (anns (heap_of w) !! annotation);
  let h1 :=
    match annotationUID ann with
    | Some _ => heap_of w
    | None => put_ann annotation (set_annotationUID (Some uid) ann) (heap_of w)
    end in
  h2 ← addAnnotation (manager_of w) annotation h1;
  Done (with_heap h2 w).


(** [addNewAnnotation] of PlanarFreehandROITool; [uid] is the identifier the
    store draws for the new record. *)
Definition addNewAnnotation (uid : string) (evt : EventDetail) (w : World) :
    outcome (loc * World) :=
  let worldPos := currentPoints_world evt in
  let referencedImageId := getReferencedImageId worldPos in
  let viewportIdsToRender := getViewportIdsWithToolToRender in
  let '(annotation, h1) :=
    new_ann
      {| annotationUID := None;
         highlighted := Some true;
         invalidated := Some true;
         isLocked := None;
         isVisible := None;
         metadata :=
           {| viewPlaneNormal := camera_viewPlaneNormal;
              viewUp := camera_viewUp;
              FrameOfReferenceUID := getFrameOfReferenceUID;
              referencedImageId := referencedImageId;
              toolName := getToolName |};
         data :=
           {| handles := {| points := []; activeHandleIndex := None |};
              polyline := [worldPos];
              isOpenContour := None;
              isOpenUShapeContour := None;
              openUShapeContourVectorToPeak := None;
              label := "" |} |}
      (heap_of w) in
  w1 ← state_addAnnotation uid annotation (with_heap h1 w);
  Done (annotation,
        trigger (AnnotationRender viewportIdsToRender)
          (activateDraw evt annotation viewportIdsToRender w1)).

Definition triggerAnnotationCompleted (annotation : loc) (w : World) : World :=
  trigger (AnnotationCompleted annotation) w.

Definition removeCrossedLinesOnCompleteDraw (w : World) : outcome World :=
  dd ← defined (drawData w);
  let canvasPoints := canvasPoints dd in
  let numPoints := length canvasPoints in
  p0 ← defined (canvasPoints !! 0);
  pn ← defined (canvasPoints !! (numPoints - 1));
  let canvasPointsMinusEnds := tail (removelast canvasPoints) in
  match getFirstIntersectionWithPolyline canvasPointsMinusEnds p0 pn false with
  | Some lineSegment =>
      let indexToRemoveUpTo := lineSegment.2 in
      Done (with_drawData
              (Some {| canvasPoints := take indexToRemoveUpTo canvasPoints;
                       polylineIndex := polylineIndex dd |}) w)
  | None => Done w
  end.

Definition completeDrawClosedContour (w : World) : outcome World :=
  w1 ← removeCrossedLinesOnCompleteDraw w;
  dd ← defined (drawData w1);
  cd ← defined (commonData w1);
  let canvasPoints := canvasPoints dd in
  p0 ← defined (canvasPoints !! 0);
  let canvasPoints :=
    pop (canvasPoints ++ addCanvasPointsToArray canvasPoints p0 cd) in
  let worldPoints := canvasToWorld <$> canvasPoints in
  ann ← typed (anns (heap_of w1) !! annotation cd);
  let ann :=
    set_data (set_isOpenContour (Some false)
                (set_polyline worldPoints (data ann))) ann in
  let w2 := with_heap (put_ann (annotation cd) ann (heap_of w1)) w1 in
  let w3 := triggerAnnotationCompleted (annotation cd) w2 in
  let w4 := with_commonData None (with_drawData None (with_isDrawing false w3)) in
  Done (deactivateDraw (trigger (AnnotationRender (viewportIdsToRender cd)) w4)).

Definition completeDrawOpenContour (w : World) : outcome World :=
  dd ← defined (drawData w);
  cd ← defined (commonData w);
  let canvasPoints := canvasPoints dd in
  let worldPoints := canvasToWorld <$> canvasPoints in
  ann ← typed (anns (heap_of w) !! annotation cd);
  let d :=
    set_handles_points
      [worldPoints !! 0; worldPoints !! (length worldPoints - 1)]
      (set_isOpenContour (Some true) (set_polyline worldPoints (data ann))) in
  let d :=
    match isOpenUShapeContour d with
    | Some true =>
        set_vectorToPeak
          (Some (findOpenUShapedContourVectorToPeak canvasPoints)) d
    | _ => d
    end in
  let w2 := with_heap (put_ann (annotation cd) (set_data d ann) (heap_of w)) w in
  let w3 := triggerAnnotationCompleted (annotation cd) w2 in
  let w4 := with_commonData None (with_drawData None (with_isDrawing false w3)) in
  Done (deactivateDraw (trigger (AnnotationRender (viewportIdsToRender cd)) w4)).

Definition findCrossingIndexDuringCreate (evt : EventDetail) (w : World) :
    outcome (option nat) :=
  let canvasPos := currentPoints_canvas evt in
  let lastCanvasPoint := lastPoints_canvas evt in
  dd ← defined (drawData w);
  let pointsLessLastOne := removelast (canvasPoints dd) in
  match
    getFirstIntersectionWithPolyline pointsLessLastOne canvasPos
      lastCanvasPoint false
  with
  | None => Done None
  | Some lineSegment => Done (Some lineSegment.1)
  end.

Definition applyCreateOnCross (evt : EventDetail) (crossingIndex : nat)
    (w : World) : outcome World :=
  dd ← defined (drawData w);
  cd ← defined (commonData w);
  let canvasPoints := canvasPoints dd in
  pk ← defined (canvasPoints !! crossingIndex);
  let canvasPoints :=
    pop (canvasPoints ++ addCanvasPointsToArray canvasPoints pk cd) in
  let canvasPoints := Nat.iter crossingIndex shift canvasPoints in
  let w1 :=
    with_drawData
      (Some {| canvasPoints := canvasPoints;
               polylineIndex := polylineIndex dd |}) w in
  w2 ← completeDrawClosedContour w1;
  activateClosedContourEdit evt (annotation cd) (viewportIdsToRender cd) w2.

Definition mouseDragDrawCallback (evt : EventDetail) (w : World) :
    outcome World :=
  let worldPos := currentPoints_world evt in
  let canvasPos := currentPoints_canvas evt in
  cd ← defined (commonData w);
  dd ← defined (drawData w);
  let canvasPoints := canvasPoints dd in
  lastCanvasPoint ← defined (canvasPoints !! (length canvasPoints - 1));
  let lastWorldPoint := canvasToWorld lastCanvasPoint in
  let worldPosDiff := vec3_subtract worldPos lastWorldPoint in
  let xDist := Math_abs (vec3_dot worldPosDiff (xDir cd)) in
  let yDist := Math_abs (vec3_dot worldPosDiff (yDir cd)) in
  if bool_decide (xDist ≤ (spacing cd).1)%Qc
     && bool_decide (yDist ≤ (spacing cd).2)%Qc
  then Done w
  else
    crossingIndex ← findCrossingIndexDuringCreate evt w;
    w1 ←
      match crossingIndex with
      | Some crossingIndex => applyCreateOnCross evt crossingIndex w
      | None =>
          let added := addCanvasPointsToArray canvasPoints canvasPos cd in
          let numPointsAdded := length added in
          Done (with_drawData
                  (Some {| canvasPoints := canvasPoints ++ added;
                           polylineIndex := polylineIndex dd + numPointsAdded |})
                  w)
      end;
    Done (trigger (AnnotationRender (viewportIdsToRender cd)) w1).



Definition cancelDrawing (w : World) : outcome World :=
  let allowOpenContours := allowOpenContours (configuration w) in
  dd ← defined (drawData w);
  let canvasPoints := canvasPoints dd in
  let firstPoint := canvasPoints !! 0 in
  let lastPoint := canvasPoints !! (length canvasPoints - 1) in
  if allowOpenContours then
    firstPoint ← defined firstPoint;
    lastPoint ← defined lastPoint;
    if negb (pointsAreWithinCloseContourProximity firstPoint lastPoint
               (closeContourProximity (configuration w)))
    then completeDrawOpenContour w
    else completeDrawClosedContour w
  else completeDrawClosedContour w.





(** A run of drag samples. *)
Fixpoint mouseDrags (evts : list EventDetail) (w : World) : outcome World :=
  match evts with
  | [] => Done w
  | evt :: rest => w1 ← mouseDragDrawCallback evt w; mouseDrags rest w1
  end.

End Loop.

(** The transient buffer of the draw in progress. *)
Definition buffer (w : World) : list Point2 :=
  match drawData w with
  | Some dd => canvasPoints dd
  | None => []
  end.

End DrawLoop.
Export DrawLoop.

(** ** drawingSvg/drawRect *)
Module DrawRect.

(** The values an option of a drawing call may hold. *)
Inductive jsval :=
  | VUndefined
  | VString (s : string)
  | VNumber (n : Qc).

Definition js_truthy (v : jsval) : bool :=
  match v with
  | VUndefined => false
  | VString s => negb (bool_decide (s = EmptyString))
  | VNumber n => negb (bool_decide (n = 0%Qc))
  end.

(** [a || b] *)
Definition js_or (a b : jsval) : jsval := if js_truthy a then a else b.

(** The [options] argument; [None] is a property the object does not have. *)
Record Options := {
  opt_color : option jsval;
  opt_width : option jsval;
  opt_lineWidth : option jsval;
  opt_lineDash : option jsval;
}.

(** [Object.assign({ color: 'dodgerblue', width: '2', lineWidth: undefined,
    lineDash: undefined }, options)] *)
Definition assign_defaults (options : Options) : Options :=
  {| opt_color := Some (default (VString "dodgerblue") (opt_color options));
     opt_width := Some (default (VString "2") (opt_width options));
     opt_lineWidth := Some (default VUndefined (opt_lineWidth options));
     opt_lineDash := Some (default VUndefined (opt_lineDash options)) |}.

Record Attributes := {
  x : string;
  y : string;
  width : string;
  height : string;
  stroke : jsval;
  fill : string;
  stroke_width : jsval;
  stroke_dasharray : jsval;
}.

(** The drawing helper, the DOM and the number formatting of template
    literals, none of which is among the sources. *)
Class SvgDrawingHelper (svg node : Type) := {
  number_toString : Qc → string;
  _getHash : string → string → string → string;
  _getSvgNode : svg → string → option node;
  _setAttributesIfNecessary : Attributes → node → svg → svg;
  _setNodeTouched : string → svg → svg;
  createElementNS : string → string → svg → node * svg;
  _setNewAttributesIfValid : Attributes → node → svg → svg;
  _appendNode : node → string → svg → svg;
}.

Section DrawRect.
Context {svg node : Type} `{SvgDrawingHelper svg node}.

(** The [attributes] object that [drawRect] builds. *)
Definition rectAttributes (start end_ : Point2) (options : Options) :
    Attributes :=
  let o := assign_defaults options in
  let color := default VUndefined (opt_color o) in
  let _width := default VUndefined (opt_width o) in
  let lineWidth := default VUndefined (opt_lineWidth o) in
  let lineDash := default VUndefined (opt_lineDash o) in
  let strokeWidth := js_or lineWidth _width in
  let tlhc := (Math_min start.1 end_.1, Math_min start.2 end_.2) in
  let width := Math_abs (start.1 - end_.1)%Qc in
  let height := Math_abs (start.2 - end_.2)%Qc in
  {| x := number_toString tlhc.1;
     y := number_toString tlhc.2;
     width := number_toString width;
     height := number_toString height;
     stroke := color;
     fill := "transparent";
     stroke_width := strokeWidth;
     stroke_dasharray := lineDash |}.

Definition drawRect (svgDrawingHelper : svg) (annotationUID rectangleUID : string)
    (start end_ : Point2) (options : Options) : svg :=
  let svgns := "http://www.w3.org/2000/svg" in
  let svgNodeHash := _getHash annotationUID "rect" rectangleUID in
  let existingRect := _getSvgNode svgDrawingHelper svgNodeHash in
  let attributes := rectAttributes start end_ options in
  match existingRect with
  | Some existingRect =>
      _setNodeTouched svgNodeHash
        (_setAttributesIfNecessary attributes existingRect svgDrawingHelper)
  | None =>
      let '(svgRectElement, s1) := createElementNS svgns "rect" svgDrawingHelper in
      _appendNode svgRectElement svgNodeHash
        (_setNewAttributesIfValid attributes svgRectElement s1)
  end.

End DrawRect.
End DrawRect.
Export DrawRect.

(** ** What the statements about the store speak of *)
Module Observe.

(** The identifiers of all records of a deep value of the store. *)
Definition uids_of (t : AnnotationState) : list (option string) :=
  t.*2 ≫= λ f, f.*2 ≫= λ b, annotationUID <$> b.

(** The records of the bucket of frame [F] and tool [T], if there is one. *)
Definition bucket_of (t : AnnotationState) (F T : string) :
    option Annotations :=
  f ← obj_get F t; obj_get T f.

(** No record of an array, of the arrays of a frame bucket, of a store
    carries the identifier [u]; the cells exist. *)
Definition anns_lack (h : heap) (u : option string) (xs : list loc) : Prop :=
  Forall (λ x, ∃ a, anns h !! x = Some a ∧ annotationUID a ≠ u) xs.
Definition arr_lacks (h : heap) (u : option string) (la : loc) : Prop :=
  ∃ xs, arrs h !! la = Some xs ∧ anns_lack h u xs.
Definition frame_lacks (h : heap) (u : option string) (fl : loc) : Prop :=
  ∃ o : obj loc,
    frames h !! fl = Some o ∧ Forall (λ kv, arr_lacks h u kv.2) o.
Definition state_lacks (h : heap) (u : option string) (sl : loc) : Prop :=
  ∃ root : obj loc,
    states h !! sl = Some root ∧ Forall (λ kv, frame_lacks h u kv.2) root.


(** The record that [addAnnotation] leaves at the location it was given. *)
Definition added_record (ann : Annotation) : Annotation :=
  set_isVisible (Some (default true (isVisible ann)))
    (set_isLocked (Some (default false (isLocked ann))) ann).



(** The records read along the path [F], [T] of the store. *)
Definition bucket_at (h : heap) (m : manager) (F T : string) :
    option Annotations :=
  root ← states h !! annotations m;
  fl ← obj_get F root;
  o ← frames h !! fl;
  la ← obj_get T o;
  deep_annotations h la.


(** Every cell of [h] is a cell of [h'], with the same content. *)
Definition preserves (h h' : heap) : Prop :=
  (∀ l v, anns h !! l = Some v → anns h' !! l = Some v)
  ∧ (∀ l v, arrs h !! l = Some v → arrs h' !! l = Some v)
  ∧ (∀ l v, frames h !! l = Some v → frames h' !! l = Some v)
  ∧ (∀ l v, states h !! l = Some v → states h' !! l = Some v).

(** What [_imageVolumeModifiedHandler] does to one record, and to the
    records of a bucket. *)
Definition invalidate (a : Annotation) : Annotation :=
  match invalidated a with
  | Some _ => set_invalidated (Some true) a
  | None => a
  end.

Definition invalidate_bucket (b : Annotations) : Annotations :=
  invalidate <$> b.

Definition invalidate_all (ls : list loc) (l : list Annotation) :
    list Annotation :=
  foldl (λ acc x, alter invalidate x acc) l ls.

(** The invariant of the data model: a record is stored under the frame of
    reference that its metadata names. *)
Definition metadata_match (t : AnnotationState) : Prop :=
  Forall (λ kv, Forall (λ kv', Forall (λ a,
    FrameOfReferenceUID (metadata a) = kv.1) kv'.2) kv.2) t.

(** The record at [l] is in a bucket of the frame of reference [F]. *)
Definition stored_under (h : heap) (m : manager) (F : string) (l : loc) :
    Prop :=
  ∃ (root : obj loc) fl (o : obj loc) T la xs,
    states h !! annotations m = Some root ∧ obj_get F root = Some fl
    ∧ frames h !! fl = Some o ∧ obj_get T o = Some la
    ∧ arrs h !! la = Some xs ∧ l ∈ xs.

(** The cells that a frame bucket reaches exist. *)
Definition frame_typed (h : heap) (fl : loc) : Prop :=
  ∃ o : obj loc, frames h !! fl = Some o
    ∧ Forall (λ kv, ∃ xs, arrs h !! kv.2 = Some xs
                ∧ Forall (λ x, x < length (anns h)) xs) o.

Definition anns_match (h : heap) (F : string) (xs : list loc) : Prop :=
  Forall (λ x, ∃ a, anns h !! x = Some a
                ∧ FrameOfReferenceUID (metadata a) = F) xs.
Definition frame_matches (h : heap) (F : string) (fl : loc) : Prop :=
  ∃ o : obj loc, frames h !! fl = Some o
    ∧ Forall (λ kv, ∃ xs, arrs h !! kv.2 = Some xs ∧ anns_match h F xs) o.

(** All the records that a frame bucket reaches, in the order of the two
    loops of the handler. *)
Definition locs_under (h : heap) (o : obj loc) (ks : list string) :
    list loc :=
  ks ≫= λ k, default [] (la ← obj_get k o; arrs h !! la).

(** [h1] is [h] with new cells. *)
Definition grows (h h1 : heap) : Prop :=
  anns h `prefix_of` anns h1 ∧ arrs h `prefix_of` arrs h1
  ∧ frames h `prefix_of` frames h1 ∧ states h `prefix_of` states h1.

(** The cells of a copy are cells that [h0] does not have. *)
Definition fresh_annotations (h0 h1 : heap) (la : loc) : Prop :=
  length (arrs h0) ≤ la
  ∧ ∃ xs, arrs h1 !! la = Some xs ∧ Forall (λ x, length (anns h0) ≤ x) xs.
Definition fresh_frame (h0 h1 : heap) (fl : loc) : Prop :=
  length (frames h0) ≤ fl
  ∧ ∃ o : obj loc, frames h1 !! fl = Some o
      ∧ Forall (λ kv, fresh_annotations h0 h1 kv.2) o.
Definition fresh_state (h0 h1 : heap) (sl : loc) : Prop :=
  length (states h0) ≤ sl
  ∧ ∃ r : obj loc, states h1 !! sl = Some r
      ∧ Forall (λ kv, fresh_frame h0 h1 kv.2) r.

(** The cells of a structure of type [AnnotationState]. *)
Definition frames_of (h : heap) (sl : loc) : list loc :=
  default [] ((λ o : obj loc, o.*2) <$> states h !! sl).
Definition arrs_of (h : heap) (sl : loc) : list loc :=
  frames_of h sl
  ≫= λ fl, default [] ((λ o : obj loc, o.*2) <$> frames h !! fl).
Definition anns_of (h : heap) (sl : loc) : list loc :=
  arrs_of h sl ≫= λ la, default [] (arrs h !! la).

(** [h'] is [h1] after any change to the cells of the structure at [e],
    and any allocation: the other cells of [h1] are as they were. *)
Definition mutated_within (h1 : heap) (e : loc) (h' : heap) : Prop :=
  (∀ l v, l ≠ e → states h1 !! l = Some v → states h' !! l = Some v)
  ∧ (∀ l v, l ∉ frames_of h1 e →
       frames h1 !! l = Some v → frames h' !! l = Some v)
  ∧ (∀ l v, l ∉ arrs_of h1 e → arrs h1 !! l = Some v → arrs h' !! l = Some v)
  ∧ (∀ l v, l ∉ anns_of h1 e → anns h1 !! l = Some v → anns h' !! l = Some v).

End Observe.
Export Observe.

(** ** A viewport and the polyline utilities, for concrete runs

    The instance used where a statement is evaluated on concrete input. *)
Module Scenario.

(** Modelled from the spec: the viewport is an external collaborator.  An
    axial view with spacing (1,1) mm per pixel: canvas pixels are world
    millimetres in the plane z = 0. *)
Definition canvasToWorld (p : Point2) : Point3 := (p.1, p.2, 0%Qc).
Definition worldToCanvas (p : Point3) : Point2 := (p.1.1, p.1.2).

(** Modelled from the spec: polyline/getSubPixelSpacingAndXYDirections is
    not among the sources.  Spec 4.1 `computeSpacingAndAxes`: the minimum
    world-space step per screen axis is the voxel spacing divided by the
    sub-pixel resolution, 0.25 mm for spacing 1 mm and resolution 4. *)
Definition getSubPixelSpacingAndXYDirections (subPixelResolution : Qc) :
    (Qc * Qc) * Point3 * Point3 :=
  ((1 / subPixelResolution, 1 / subPixelResolution)%Qc,
   (1, 0, 0)%Qc, (0, 1, 0)%Qc).

Definition Qc_of_nat (n : nat) : Qc := Q2Qc (inject_Z (Z.of_nat n)).

(** Modelled from the spec: polyline/addCanvasPointsToArray is not among
    the sources.  Spec 4.1 `insertSampledPoints`: it `inserts one or more
    intermediate points between the last recorded point and the new point`,
    as many as whole steps fit in the move, evenly spaced and ending at the
    new point; a move of less than two steps records the new point alone,
    as in the scenario of spec 8. *)
Definition numPointsToAdd (last new : Point2) (cd : CommonData) : nat :=
  let w := vec3_subtract (canvasToWorld new) (canvasToWorld last) in
  let xDist := Math_abs (vec3_dot w (xDir cd)) in
  let yDist := Math_abs (vec3_dot w (yDir cd)) in
  Z.to_nat (Z.max (Qfloor (xDist / (spacing cd).1)%Qc)
                  (Qfloor (yDist / (spacing cd).2)%Qc)).

Definition addCanvasPointsToArray (canvasPoints : list Point2)
    (newCanvasPoint : Point2) (cd : CommonData) : list Point2 :=
  match list.last canvasPoints with
  | None => [newCanvasPoint]
  | Some lastCanvasPoint =>
      let n := numPointsToAdd lastCanvasPoint newCanvasPoint cd in
      if decide (1 < n) then
        (λ i : nat,
           (lastCanvasPoint.1
            + (newCanvasPoint.1 - lastCanvasPoint.1)
              * Qc_of_nat i / Qc_of_nat n,
            lastCanvasPoint.2
            + (newCanvasPoint.2 - lastCanvasPoint.2)
              * Qc_of_nat i / Qc_of_nat n)%Qc) <$> seq 1 n
      else [newCanvasPoint]
  end.

(** Modelled from the spec: polyline/getFirstIntersectionWithPolyline is
    not among the sources.  Spec 4.1 `segmentsIntersect`: it `returns the
    index of the first polyline segment that properly intersects the query
    segment, scanning in sequence order; returns none if no intersection`.
    The segment is returned as the indices of its two points. *)
Definition orientation (p q r : Point2) : Qc :=
  ((q.2 - p.2) * (r.1 - q.1) - (q.1 - p.1) * (r.2 - q.2))%Qc.

Definition opposite_sides (a b : Qc) : bool :=
  bool_decide (a < 0 ∧ 0 < b)%Qc || bool_decide (b < 0 ∧ 0 < a)%Qc.

Definition properlyIntersect (p1 q1 p2 q2 : Point2) : bool :=
  opposite_sides (orientation p1 q1 p2) (orientation p1 q1 q2)
  && opposite_sides (orientation p2 q2 p1) (orientation p2 q2 q1).

Fixpoint scan_segments (p1 q1 : Point2) (j : nat) (pj : Point2)
    (rest : list Point2) : option (nat * nat) :=
  match rest with
  | [] => None
  | pi :: rest' =>
      if properlyIntersect p1 q1 pj pi then Some (j, S j)
      else scan_segments p1 q1 (S j) pi rest'
  end.

Definition getFirstIntersectionWithPolyline (points : list Point2)
    (p1 q1 : Point2) (closed : bool) : option (nat * nat) :=
  match points with
  | [] => None
  | p0 :: rest =>
      if closed then
        match list.last points with
        | Some pn =>
            if properlyIntersect p1 q1 pn p0 then Some (length points - 1, 0)
            else scan_segments p1 q1 0 p0 rest
        | None => None
        end
      else scan_segments p1 q1 0 p0 rest
  end.

(** Modelled from the spec: polyline/pointsAreWithinCloseContourProximity
    is not among the sources.  Spec 4.1 `withinCloseProximity`: a
    `Euclidean distance test`, here on the squares. *)
Definition pointsAreWithinCloseContourProximity (p1 p2 : Point2)
    (closeContourProximity : Qc) : bool :=
  bool_decide
    ((p1.1 - p2.1) * (p1.1 - p2.1) + (p1.2 - p2.2) * (p1.2 - p2.2)
     ≤ closeContourProximity * closeContourProximity)%Qc.

(** Modelled from the spec: findOpenUShapedContourVectorToPeak is not among
    the sources.  Spec 4.1 `findPeakVector`: `the vector from the chord
    connecting the two endpoints to the farthest point on the contour`,
    given by its two ends. *)
Definition dist2 (p q : Point2) : Qc :=
  ((p.1 - q.1) * (p.1 - q.1) + (p.2 - q.2) * (p.2 - q.2))%Qc.

Definition findOpenUShapedContourVectorToPeak (canvasPoints : list Point2) :
    list Point3 :=
  match canvasPoints !! 0, list.last canvasPoints with
  | Some first, Some final =>
      let mid := ((first.1 + final.1) / Q2Qc 2, (first.2 + final.2) / Q2Qc 2)%Qc in
      let far :=
        foldl (λ best p,
                 if bool_decide (dist2 mid best < dist2 mid p)%Qc then p
                 else best) first canvasPoints in
      [canvasToWorld mid; canvasToWorld far]
  | _, _ => []
  end.

#[export] Instance externals : Externals := {|
  DrawLoop.canvasToWorld := canvasToWorld;
  DrawLoop.worldToCanvas := worldToCanvas;
  getFrameOfReferenceUID := "1.2.840.1";
  camera_viewPlaneNormal := (0, 0, 1)%Qc;
  camera_viewUp := (0, 1, 0)%Qc;
  getReferencedImageId := λ _, None;
  getViewportIdsWithToolToRender := ["viewport-1"];
  getToolName := "PlanarFreehandROI";
  DrawLoop.getSubPixelSpacingAndXYDirections :=
    getSubPixelSpacingAndXYDirections;
  DrawLoop.addCanvasPointsToArray := addCanvasPointsToArray;
  DrawLoop.getFirstIntersectionWithPolyline :=
    getFirstIntersectionWithPolyline;
  DrawLoop.pointsAreWithinCloseContourProximity :=
    pointsAreWithinCloseContourProximity;
  DrawLoop.findOpenUShapedContourVectorToPeak :=
    findOpenUShapedContourVectorToPeak;
|}.

(** A tool that has just been constructed, over an empty store. *)
Definition idle (c : Configuration) : World :=
  let '(m, h) := create "DEFAULT" Heap.empty in
  {| heap_of := h; manager_of := m; configuration := c;
     isDrawing := false; isEditingClosed := false; isEditingOpen := false;
     drawData := None; commonData := None; editData := None;
     isInteractingWithTool := false; drawListeners := false;
     closedEditListeners := false; cursorHidden := false;
     triggered := [] |}.

Definition config (subPixelResolution : Z) : Configuration :=
  {| allowOpenContours := true;
     closeContourProximity := Q2Qc 10;
     subPixelResolution := Q2Qc (inject_Z subPixelResolution) |}.

(** A sample at the canvas point (x, y), coming from (x0, y0). *)
Definition pt (x y : Q) : Point2 := (Q2Qc x, Q2Qc y).
Definition sample (x0 y0 x y : Q) : EventDetail :=
  {| currentPoints_world := canvasToWorld (pt x y);
     currentPoints_canvas := pt x y;
     lastPoints_canvas := pt x0 y0 |}.


(** A record of tool [T] under frame of reference [F]. *)
Definition record (u F T : string) (inv : option bool) : Annotation :=
  {| annotationUID := Some u; highlighted := Some false; invalidated := inv;
     isLocked := None; isVisible := None;
     metadata :=
       {| FrameOfReferenceUID := F; toolName := T;
          viewPlaneNormal := (0, 0, 1)%Qc; viewUp := (0, 1, 0)%Qc;
          referencedImageId := None |};
     data :=
       {| handles := {| points := []; activeHandleIndex := None |};
          polyline := []; isOpenContour := None; isOpenUShapeContour := None;
          openUShapeContourVectorToPeak := None; label := "" |} |}.

(** The default manager after records have been created and added. *)
Definition populate (rs : list Annotation) : outcome (manager * heap) :=
  foldl
    (λ acc r,
       '(m, h) ← acc;
       let '(a, h1) := new_ann r h in
       h2 ← addAnnotation m a h1;
       Done (m, h2))
    (Done (create "DEFAULT" Heap.empty)) rs.

Definition stored (rs : list Annotation) : manager * heap :=
  match populate rs with
  | Done x => x
  | _ => create "DEFAULT" Heap.empty
  end.

(** Rational coordinates of points, to read the results of runs. *)
Definition coords2 (p : Point2) : Q * Q := (this p.1, this p.2).



(** A gesture from its first sample at the origin: the press, then the
    drags. *)
Definition drawn (c : Configuration) (evts : list EventDetail) :
    outcome World :=
  '(_, w) ← addNewAnnotation "u1" (sample 0 0 0 0) (idle c);
  mouseDrags evts w.

(** A gesture that runs right, up and left, and then turns down across its
    first stroke, between the points of index 2 and 3. *)
Definition crossing_drags : list EventDetail :=
  [sample 0 0 2 0; sample 2 0 4 0; sample 4 0 4 2; sample 4 2 (5 # 2) 2].
Definition crossing_buffer : list Point2 :=
  [pt 0 0; pt 1 0; pt 2 0; pt 3 0; pt 4 0; pt 4 1; pt 4 2; pt (5 # 2) 2].

(** A gesture that runs right and comes back over itself to where it
    started, and one that runs right and up. *)
Definition retraced_drags : list EventDetail :=
  [sample 0 0 2 0; sample 2 0 0 0].
Definition retraced_buffer : list Point2 :=
  [pt 0 0; pt 1 0; pt 2 0; pt 1 0; pt 0 0].

(** A store with three records under frame of reference F1, of two tools,
    and one under F2; and its deep value. *)
Definition volumes : list Annotation :=
  [record "a1" "F1" "Length" (Some false);
   record "a2" "F1" "Length" (Some false);
   record "a3" "F1" "Probe" (Some false);
   record "b1" "F2" "Length" (Some false)].

Definition volumes_state : AnnotationState :=
  [("F1", [("Length", [added_record (record "a1" "F1" "Length" (Some false));
                       added_record (record "a2" "F1" "Length" (Some false))]);
           ("Probe", [added_record (record "a3" "F1" "Probe" (Some false))])]);
   ("F2", [("Length", [added_record (record "b1" "F2" "Length" (Some false))])])].

(** The data of a caller of [restoreAnnotations]: a record, the array
    that holds it, and the frame object that holds the array under Length.
    The result is the array, the frame object and the heap. *)
Definition callers_data (h : heap) : loc * loc * heap :=
  let '(b, h1) := new_ann (record "b1" "F1" "Length" None) h in
  let '(la, h2) := new_arr [b] h1 in
  let '(fl, h3) := new_frame [("Length", la)] h2 in
  (la, fl, h3).

End Scenario.

(** * Proofs *)

(** ** Dictionaries and [Object_keys] *)
Section obj.
Context {V : Type}.
Implicit Types (o : obj V) (k : string) (v : V).

Lemma obj_get_Some_elem k v o : obj_get k o = Some v → (k, v) ∈ o.
Proof.
  induction o as [|[k' v'] o IH]; simpl; [done|].
  case_decide; intros.
  - simplify_eq. left.
  - right. auto.
Qed.

Lemma obj_get_is_Some k o : is_Some (obj_get k o) ↔ k ∈ o.*1.
Proof.
  induction o as [|[k' v'] o IH]; simpl.
  - split; [by intros [? ?]|]. by intros ?%elem_of_nil.
  - case_decide; simplify_eq.
    + split; [left|eauto].
    + rewrite IH, elem_of_cons. naive_solver.
Qed.


Lemma obj_get_set_eq k v o : obj_get k (obj_set k v o) = Some v.
Proof.
  induction o as [|[k' v'] o IH]; simpl.
  - by rewrite decide_True.
  - case_decide; simpl; [by rewrite decide_True|]. by rewrite decide_False.
Qed.






Lemma obj_set_keys_old k v v' o :
  obj_get k o = Some v' → (obj_set k v o).*1 = o.*1.
Proof.
  induction o as [|[k0 v0] o IH]; simpl; [done|].
  case_decide; simpl; [by simplify_eq|]. intros. f_equal. auto.
Qed.

End obj.

Lemma insert_index_perm x l : insert_index x l ≡ₚ x :: l.
Proof.
  induction l as [|y l IH]; simpl; [done|].
  case_match; [done|]. rewrite IH. apply Permutation_swap.
Qed.

Lemma sort_index_perm l : sort_index l ≡ₚ l.
Proof.
  induction l as [|x l IH]; simpl; [done|].
  rewrite insert_index_perm. by rewrite IH.
Qed.

Lemma Object_keys_perm {V} (o : obj V) : Object_keys o ≡ₚ o.*1.
Proof.
  unfold Object_keys. rewrite sort_index_perm.
  induction (o.*1) as [|k ks IH]; [done|].
  rewrite filter_cons. cbn [omap list_omap]. destruct (array_index k) eqn:E; simpl.
  - constructor. exact IH.
  - rewrite <-Permutation_middle. constructor. exact IH.
Qed.

Lemma Object_keys_elem {V} (o : obj V) k : k ∈ Object_keys o ↔ k ∈ o.*1.
Proof. by rewrite Object_keys_perm. Qed.

Lemma Object_keys_length {V} (o : obj V) : length (Object_keys o) = length o.
Proof. by rewrite Object_keys_perm, length_fmap. Qed.

(** ** [Math.abs] and [Math.min] *)
Section Numbers.
Local Open Scope Qc_scope.

Lemma Qcopp_neg_iff (z : Qc) : (- z < 0)%Qc ↔ (0 < z)%Qc.
Proof.
  unfold Qclt, Qcopp, Q2Qc. cbn [this]. rewrite !Qred_correct. split; intros; lra.
Qed.

Lemma Math_abs_opp (z : Qc) : Math_abs (- z) = Math_abs z.
Proof.
  unfold Math_abs.
  destruct (decide (- z < 0)) as [Hn|Hn], (decide (z < 0)) as [Hz|Hz]; try done.
  - apply Qcopp_neg_iff in Hn. exfalso. eapply Qclt_not_le; [exact Hn|]. by apply Qclt_le_weak.
  - ring.
  - rewrite Qcopp_neg_iff in Hn.
    apply Qcnot_lt_le in Hn, Hz.
    assert (z = 0) as -> by (by apply Qcle_antisym). ring.
Qed.

Lemma Math_abs_minus (a b : Qc) : Math_abs (a - b) = Math_abs (b - a).
Proof. rewrite <-Math_abs_opp. f_equal. ring. Qed.

Lemma Math_min_comm (a b : Qc) : Math_min a b = Math_min b a.
Proof.
  unfold Math_min.
  destruct (decide (b < a)) as [H1|H1], (decide (a < b)) as [H2|H2]; try done.
  - exfalso. eapply Qclt_not_le; [exact H1|]. by apply Qclt_le_weak.
  - apply Qcnot_lt_le in H1, H2. by apply Qcle_antisym.
Qed.

End Numbers.

(** ** [drawRect] *)
Section R.
Local Open Scope Qc_scope.
Context {svg node : Type} `{SvgDrawingHelper svg node}.
(** C10: the attributes that [drawRect] computes have as x and y the minima
    of the coordinates of the two corners, and as width and height the
    absolute differences of the coordinates; they are the same for
    (end, start) as for (start, end), and so is all that [drawRect] does. *)
Theorem drawRect_corner_swap (start end_ : Point2) (options : Options) :
  let a := rectAttributes start end_ options in
  x a = number_toString (Math_min start.1 end_.1)
  ∧ y a = number_toString (Math_min start.2 end_.2)
  ∧ width a = number_toString (Math_abs (start.1 - end_.1))
  ∧ height a = number_toString (Math_abs (start.2 - end_.2))
  ∧ rectAttributes end_ start options = a
  ∧ ∀ helper annotationUID rectangleUID,
      drawRect helper annotationUID rectangleUID end_ start options
      = drawRect helper annotationUID rectangleUID start end_ options.
Proof.
  assert (rectAttributes end_ start options = rectAttributes start end_ options) as Hswap.
  { unfold rectAttributes; cbn.
    by rewrite (Math_min_comm end_.1), (Math_min_comm end_.2),
      (Math_abs_minus end_.1), (Math_abs_minus end_.2). }
  cbn. repeat split; try done.
  intros. unfold drawRect. by rewrite Hswap.
Qed.
End R.




Lemma deep_annotations_lacks h u la b :
  deep_annotations h la = Some b → u ∉ annotationUID <$> b → arr_lacks h u la.
Proof.
  unfold deep_annotations, arr_lacks. intros Hd Hu.
  destruct (arrs h !! la) as [xs|]; [|done]. simpl in Hd.
  exists xs. split; [done|].
  apply mapM_Some in Hd. unfold anns_lack.
  induction Hd as [|x a xs b Hx Hd IH]; [constructor|].
  rewrite fmap_cons, not_elem_of_cons in Hu. destruct Hu as [Hu1 Hu2].
  constructor; [|by apply IH]. exists a. split; [done|]. congruence.
Qed.

Lemma deep_frame_lacks h u fl f :
  deep_frame h fl = Some f → u ∉ (f.*2 ≫= λ b, annotationUID <$> b) →
  frame_lacks h u fl.
Proof.
  unfold deep_frame, frame_lacks. intros Hd Hu.
  destruct (frames h !! fl) as [o|]; [|done]. simpl in Hd.
  exists o. split; [done|].
  apply mapM_Some in Hd.
  induction Hd as [|[k la] [k' b] o f Hx Hd IH]; [constructor|].
  rewrite fmap_cons, bind_cons, not_elem_of_app in Hu. destruct Hu as [Hu1 Hu2].
  constructor; [|by apply IH]. simpl in *.
  destruct (deep_annotations h la) eqn:E; simplify_eq/=.
  by eapply deep_annotations_lacks.
Qed.

Lemma deep_state_lacks h u sl t :
  deep_state h sl = Some t → u ∉ uids_of t → state_lacks h u sl.
Proof.
  unfold deep_state, state_lacks, uids_of. intros Hd Hu.
  destruct (states h !! sl) as [o|]; [|done]. simpl in Hd.
  exists o. split; [done|].
  apply mapM_Some in Hd.
  induction Hd as [|[k la] [k' b] o f Hx Hd IH]; [constructor|].
  rewrite fmap_cons, bind_cons, not_elem_of_app in Hu. destruct Hu as [Hu1 Hu2].
  constructor; [|by apply IH]. simpl in *.
  destruct (deep_frame h la) eqn:E; simplify_eq/=.
  by eapply deep_frame_lacks.
Qed.

(** ** The search for a record by its identifier *)
Lemma findIndex_lack h u xs : anns_lack h u xs → findIndex h u xs = Done None.
Proof.
  induction 1 as [|x xs (a & Ha & Hne) _ IH]; simpl; [done|].
  rewrite Ha. simpl. rewrite decide_False by done. by rewrite IH.
Qed.


Lemma scan_tools_lack h u fl (o : obj loc) ks :
  frames h !! fl = Some o →
  Forall (λ kv, arr_lacks h u kv.2) o →
  ks ⊆ o.*1 →
  scan_tools h u (Some fl) ks = Done None.
Proof.
  intros Hfl Ho. induction ks as [|k ks IH]; intros Hks; simpl; [done|].
  rewrite Hfl. simpl.
  assert (k ∈ o.*1) as Hk by (apply Hks; left).
  apply obj_get_is_Some in Hk as [la Hla]. rewrite Hla. simpl.
  apply obj_get_Some_elem in Hla.
  rewrite list.Forall_forall in Ho. destruct (Ho _ Hla) as (xs & Hxs & Hlack).
  simpl in *. rewrite Hxs. simpl. rewrite (findIndex_lack _ _ _ Hlack). simpl.
  apply IH. intros ??. apply Hks. by right.
Qed.

Lemma scan_frames_lack h u (root : obj loc) ks :
  Forall (λ kv, frame_lacks h u kv.2) root →
  ks ⊆ root.*1 →
  scan_frames h u None root ks = Done None.
Proof.
  intros Hroot. induction ks as [|k ks IH]; intros Hks; simpl; [done|].
  assert (k ∈ root.*1) as Hk by (apply Hks; left).
  apply obj_get_is_Some in Hk as [fl Hfl]. rewrite Hfl.
  apply obj_get_Some_elem in Hfl.
  rewrite list.Forall_forall in Hroot. destruct (Hroot _ Hfl) as (o & Ho & Hlack).
  simpl in *. unfold toolNameKeys_of. simpl. rewrite Ho. simpl.
  rewrite (scan_tools_lack _ _ _ o); [| done | done |].
  - simpl. apply IH. intros ??. apply Hks. by right.
  - intros k' Hk'. by apply Object_keys_elem.
Qed.














Lemma obj_get_mapM {A B} (g : A → option B) (o : obj A) (o' : obj B) k :
  mapM (λ kv, (λ v, (kv.1, v)) <$> g kv.2) o = Some o' →
  obj_get k o' = obj_get k o ≫= g.
Proof.
  intros Hm%mapM_Some. induction Hm as [|[k1 v1] [k2 v2] o o' Hx _ IH]; [done|].
  simpl in *. destruct (g v1) eqn:E; simplify_eq/=.
  case_decide; simpl; [by rewrite E|done].
Qed.







Lemma mapM_obj_lookup {A B} (g : A → option B) (o : obj A) o' k v :
  mapM (λ kv, (λ v, (kv.1, v)) <$> g kv.2) o = Some o' →
  obj_get k o = Some v → is_Some (g v).
Proof.
  intros Hm%mapM_Some Hk.
  apply obj_get_Some_elem, list_elem_of_lookup in Hk as [i Hi].
  destruct (Forall2_lookup_l _ _ _ _ _ Hm Hi) as (? & _ & Hc). simpl in Hc.
  destruct (g v); [eauto|done].
Qed.

Lemma bucket_at_deep h m t F T :
  deep_state h (annotations m) = Some t →
  bucket_at h m F T = bucket_of t F T.
Proof.
  unfold deep_state, bucket_at, bucket_of. intros Hd.
  destruct (states h !! annotations m) as [r|]; [|done]. simpl in *.
  rewrite (obj_get_mapM _ _ _ F Hd).
  destruct (obj_get F r) as [fl|] eqn:HF; [|done]. simpl.
  destruct (mapM_obj_lookup _ _ _ _ _ Hd HF) as [f Hf]. rewrite Hf. simpl.
  unfold deep_frame in Hf.
  destruct (frames h !! fl) as [o|]; [|done]. simpl in *.
  by rewrite (obj_get_mapM _ _ _ T Hf).
Qed.






Lemma bind_Done {A B} (e : outcome A) (k : A → outcome B) b :
  e ≫= k = Done b → ∃ a, e = Done a ∧ k a = Done b.
Proof. destruct e; simpl; [eauto|done..]. Qed.

Lemma defined_Done {A} (o : option A) a : defined o = Done a → o = Some a.
Proof. destruct o; simpl; congruence. Qed.

Lemma typed_Done {A} (o : option A) a : typed o = Done a → o = Some a.
Proof. destruct o; simpl; congruence. Qed.

Ltac inv_outcome :=
  repeat match goal with
  | H : _ ≫= _ = Done _ |- _ =>
      apply bind_Done in H as (? & ? & H)
  | H : defined _ = Done _ |- _ => apply defined_Done in H
  | H : typed _ = Done _ |- _ => apply typed_Done in H
  | H : Done _ = Done _ |- _ => injection H as H
  | H : (let '(_, _) := ?p in _) = Done _ |- _ => destruct p eqn:?
  | H : match ?x with _ => _ end = Done _ |- _ => destruct x eqn:?; try done
  | H : (if ?x then _ else _) = Done _ |- _ => destruct x eqn:?; try done
  end.

(** ** The draw loop *)
Section loop.
Context `{Externals}.

Lemma removeCrossedLines_keeps w w' :
  removeCrossedLinesOnCompleteDraw w = Done w' →
  heap_of w' = heap_of w ∧ manager_of w' = manager_of w
  ∧ commonData w' = commonData w ∧ configuration w' = configuration w
  ∧ isDrawing w' = isDrawing w ∧ triggered w' = triggered w.
Proof.
  unfold removeCrossedLinesOnCompleteDraw. intros Hw. inv_outcome; by subst.
Qed.


Lemma completeDrawOpenContour_stops w w' :
  completeDrawOpenContour w = Done w' → isDrawing w' = false.
Proof.
  unfold completeDrawOpenContour. intros Hw. inv_outcome. by subst.
Qed.





End loop.



Lemma preserves_refl h : preserves h h.
Proof. done. Qed.

Lemma preserves_trans h1 h2 h3 :
  preserves h1 h2 → preserves h2 h3 → preserves h1 h3.
Proof. intros (?&?&?&?) (?&?&?&?). repeat split; eauto. Qed.

Lemma deep_annotations_preserved h h' la b :
  preserves h h' → deep_annotations h la = Some b →
  deep_annotations h' la = Some b.
Proof.
  intros (Ha & Hr & _) Hd. unfold deep_annotations in *.
  destruct (arrs h !! la) as [xs|] eqn:E; [|done]. simpl in Hd.
  rewrite (Hr _ _ E). simpl. rewrite <-Hd. symmetry.
  apply Forall_mapM_ext. apply mapM_Some in Hd.
  clear E. induction Hd as [|x y xs b Hx _ IH]; constructor; [|done].
  rewrite Hx. symmetry. by apply Ha.
Qed.

Lemma deep_frame_preserved h h' fl f :
  preserves h h' → deep_frame h fl = Some f → deep_frame h' fl = Some f.
Proof.
  intros Hp Hd. unfold deep_frame in *.
  destruct (frames h !! fl) as [o|] eqn:E; [|done]. simpl in Hd.
  destruct Hp as (? & ? & Hf & ?). rewrite (Hf _ _ E). simpl.
  rewrite <-Hd. symmetry.
  apply Forall_mapM_ext. apply mapM_Some in Hd.
  clear E. induction Hd as [|[k la] [k' b] o f Hx _ IH]; constructor; [|done].
  simpl in *. destruct (deep_annotations h la) as [b'|] eqn:E; [|done].
  by rewrite (deep_annotations_preserved h h' la b').
Qed.

Lemma deep_state_preserved h h' sl t :
  preserves h h' → deep_state h sl = Some t → deep_state h' sl = Some t.
Proof.
  intros Hp Hd. unfold deep_state in *.
  destruct (states h !! sl) as [o|] eqn:E; [|done]. simpl in Hd.
  destruct Hp as (? & ? & ? & Hs). rewrite (Hs _ _ E). simpl.
  rewrite <-Hd. symmetry.
  apply Forall_mapM_ext. apply mapM_Some in Hd.
  clear E. induction Hd as [|[k la] [k' b] o f Hx _ IH]; constructor; [|done].
  simpl in *. destruct (deep_frame h la) as [b'|] eqn:E; [|done].
  by rewrite (deep_frame_preserved h h' la b').
Qed.

(** ** Release of a short gesture *)
Section release.
Context `{Externals}.


End release.

Lemma deep_state_matches h sl t :
  deep_state h sl = Some t → metadata_match t →
  ∃ r : obj loc, states h !! sl = Some r
    ∧ Forall (λ kv, frame_matches h kv.1 kv.2) r.
Proof.
  unfold deep_state, metadata_match. intros Hd Hm.
  destruct (states h !! sl) as [r|]; [|done]. simpl in Hd.
  exists r. split; [done|]. apply mapM_Some in Hd.
  induction Hd as [|[F fl] [F' f] r t Hx _ IH]; [constructor|].
  apply list.Forall_cons in Hm as [Hm1 Hm2]. constructor; [|by apply IH].
  simpl in *. clear IH Hm2.
  destruct (deep_frame h fl) as [f0|] eqn:Hf; simplify_eq/=.
  unfold deep_frame in Hf. destruct (frames h !! fl) as [o|] eqn:Ho; [|done].
  simpl in Hf. exists o. split; [done|]. apply mapM_Some in Hf. clear Ho.
  induction Hf as [|[T la] [T' b] o f Hx _ IH]; [constructor|].
  apply list.Forall_cons in Hm1 as [Hm1 Hm2]. constructor; [|by apply IH].
  simpl in *. clear IH Hm2.
  destruct (deep_annotations h la) as [b0|] eqn:Hb; simplify_eq/=.
  unfold deep_annotations in Hb. destruct (arrs h !! la) as [xs|] eqn:Hxs; [|done].
  simpl in Hb. exists xs. split; [done|]. apply mapM_Some in Hb. clear Hxs.
  induction Hb as [|x a xs b Hx _ IH]; [constructor|].
  apply list.Forall_cons in Hm1 as [Hm1 Hm2]. constructor; [|by apply IH]. eauto.
Qed.

Lemma invalidate_idemp a : invalidate (invalidate a) = invalidate a.
Proof. unfold invalidate. by destruct a as [? ? [?|] ? ? ? ?]. Qed.

Lemma with_anns_id h : with_anns (anns h) h = h.
Proof. by destruct h. Qed.

Lemma invalidate_each_spec xs h :
  Forall (λ x, is_Some (anns h !! x)) xs →
  invalidate_each xs h
  = Done (with_anns (foldl (λ acc x, alter invalidate x acc) (anns h) xs) h).
Proof.
  revert h. induction xs as [|x xs IH]; intros h Hxs; simpl.
  { by rewrite with_anns_id. }
  apply list.Forall_cons in Hxs as [[a Ha] Hxs]. rewrite Ha. simpl.
  assert (match invalidated a with
          | Some _ => put_ann x (set_invalidated (Some true) a) h
          | None => h
          end = with_anns (alter invalidate x (anns h)) h) as ->.
  { unfold put_ann, invalidate.
    destruct (invalidated a) eqn:E.
    - f_equal. apply list_eq. intros i.
      destruct (decide (i = x)) as [->|].
      + rewrite list_lookup_insert_eq by (by eapply lookup_lt_Some).
        rewrite list_lookup_alter_eq, Ha. simpl. unfold invalidate. by rewrite E.
      + rewrite list_lookup_insert_ne by done. by rewrite list_lookup_alter_ne.
    - rewrite <-(with_anns_id h) at 1. f_equal. apply list_eq. intros i.
      destruct (decide (i = x)) as [->|].
      + rewrite list_lookup_alter_eq, Ha. simpl. unfold invalidate. by rewrite E.
      + by rewrite list_lookup_alter_ne. }
  rewrite IH.
  - done.
  - simpl. revert Hxs. apply Forall_impl. intros y [b Hb].
    destruct (decide (y = x)) as [->|].
    + rewrite list_lookup_alter_eq, Hb. eauto.
    + rewrite list_lookup_alter_ne by done. eauto.
Qed.


Lemma invalidate_all_length ls l : length (invalidate_all ls l) = length l.
Proof.
  revert l. induction ls as [|x ls IH]; intros l; simpl; [done|].
  unfold invalidate_all in *. simpl. by rewrite IH, length_alter.
Qed.

Lemma invalidate_all_lookup ls l x :
  invalidate_all ls l !! x
  = if decide (x ∈ ls) then invalidate <$> l !! x else l !! x.
Proof.
  revert l. induction ls as [|y ls IH]; intros l.
  { unfold invalidate_all. cbn [foldl].
    case_decide as Hin; [by apply elem_of_nil in Hin|done]. }
  unfold invalidate_all in *. simpl. rewrite IH.
  destruct (decide (x = y)) as [->|Hne].
  - rewrite list_lookup_alter_eq. rewrite (decide_True _ _ (list_elem_of_here _ _)).
    case_decide; [|done]. destruct (l !! y); simpl; [|done].
    by rewrite invalidate_idemp.
  - rewrite list_lookup_alter_ne by done.
    destruct (decide (x ∈ ls)).
    + by rewrite decide_True by (by right).
    + rewrite decide_False; [done|]. by intros [?|?]%elem_of_cons.
Qed.

Lemma invalidate_each_all xs h :
  Forall (λ x, x < length (anns h)) xs →
  invalidate_each xs h = Done (with_anns (invalidate_all xs (anns h)) h).
Proof.
  intros Hxs. apply invalidate_each_spec.
  revert Hxs. apply Forall_impl. intros x Hx. by apply lookup_lt_is_Some.
Qed.

Lemma invalidate_tools_all fl (o : obj loc) ks h :
  frames h !! fl = Some o →
  Forall (λ k, ∃ la xs, obj_get k o = Some la ∧ arrs h !! la = Some xs
                 ∧ Forall (λ x, x < length (anns h)) xs) ks →
  invalidate_tools fl ks h
  = Done (with_anns (invalidate_all (locs_under h o ks) (anns h)) h).
Proof.
  intros Ho. revert h Ho. induction ks as [|k ks IH]; intros h Ho Hks; simpl.
  { by rewrite with_anns_id. }
  apply list.Forall_cons in Hks as [(la & xs & Hla & Hxs & Hlt) Hks].
  rewrite Ho. simpl. rewrite Hla. simpl. rewrite Hxs. simpl.
  rewrite invalidate_each_all by done. simpl.
  rewrite IH.
  - simpl. f_equal. unfold with_anns. simpl. f_equal.
    unfold invalidate_all. rewrite foldl_app. reflexivity.
  - done.
  - simpl. rewrite invalidate_all_length. done.
Qed.

Lemma elem_locs_under h (o : obj loc) ks x :
  x ∈ locs_under h o ks ↔
  ∃ k la xs, k ∈ ks ∧ obj_get k o = Some la ∧ arrs h !! la = Some xs ∧ x ∈ xs.
Proof.
  unfold locs_under. rewrite list_elem_of_bind. split.
  - intros (k & Hx & Hk). destruct (obj_get k o) as [la|] eqn:Hla; simpl in Hx;
      [|by apply elem_of_nil in Hx].
    destruct (arrs h !! la) as [xs|] eqn:Hxs; simpl in Hx;
      [|by apply elem_of_nil in Hx].
    eauto 10.
  - intros (k & la & xs & Hk & Hla & Hxs & Hx). exists k. split; [|done].
    rewrite Hla. simpl. by rewrite Hxs.
Qed.

Lemma mapM_fmap_invalidate (l : list Annotation) xs :
  mapM (λ x, invalidate <$> l !! x) xs
  = invalidate_bucket <$> mapM (λ x, l !! x) xs.
Proof.
  induction xs as [|x xs IH]; simpl; [done|].
  rewrite IH. destruct (l !! x); simpl; [|done].
  destruct (mapM (λ x, l !! x) xs); reflexivity.
Qed.

Lemma deep_state_typed h sl t :
  deep_state h sl = Some t →
  ∃ r : obj loc, states h !! sl = Some r
    ∧ Forall (λ kv, frame_typed h kv.2) r.
Proof.
  unfold deep_state. intros Hd.
  destruct (states h !! sl) as [r|]; [|done]. simpl in Hd.
  exists r. split; [done|]. apply mapM_Some in Hd.
  induction Hd as [|[F fl] [F' f] r t Hx _ IH]; [constructor|].
  constructor; [|by apply IH].
  simpl in *. clear IH.
  destruct (deep_frame h fl) as [f0|] eqn:Hf; simplify_eq/=.
  unfold deep_frame in Hf. destruct (frames h !! fl) as [o|] eqn:Ho; [|done].
  simpl in Hf. exists o. split; [done|]. apply mapM_Some in Hf. clear Ho.
  induction Hf as [|[T la] [T' b] o f Hx _ IH]; [constructor|].
  constructor; [|by apply IH].
  simpl in *. clear IH.
  destruct (deep_annotations h la) as [b0|] eqn:Hb; simplify_eq/=.
  unfold deep_annotations in Hb. destruct (arrs h !! la) as [xs|] eqn:Hxs; [|done].
  simpl in Hb. exists xs. split; [done|]. apply mapM_Some in Hb. clear Hxs.
  induction Hb as [|x a xs b Hx _ IH]; [constructor|].
  constructor; [|by apply IH]. by eapply lookup_lt_Some.
Qed.

(** C9: [_imageVolumeModifiedHandler] for the frame [f] returns; it sets
    [invalidated] to true on every record stored under [f], of every tool,
    whose flag is defined, and leaves every other record and the structure
    of the store as they were.  So every bucket under [f] reads
    invalidated, and, in a store whose records are under the frame of
    reference that their metadata names, every bucket of another frame
    reads as before. *)
Theorem volume_modified_invalidates h m f t :
  deep_state h (annotations m) = Some t →
  ∃ h',
    _imageVolumeModifiedHandler m f h = Done h'
    ∧ arrs h' = arrs h ∧ frames h' = frames h ∧ states h' = states h
    ∧ (∀ l, stored_under h m f l → anns h' !! l = invalidate <$> anns h !! l)
    ∧ (∀ l, ¬ stored_under h m f l → anns h' !! l = anns h !! l)
    ∧ (∀ T, bucket_at h' m f T = invalidate_bucket <$> bucket_of t f T)
    ∧ (metadata_match t →
       ∀ F T, F ≠ f → bucket_at h' m F T = bucket_of t F T).
Proof.
  intros Hdeep.
  destruct (deep_state_typed _ _ _ Hdeep) as (r & Hr & Htyped).
  assert (∀ F T, bucket_of t F T = bucket_at h m F T) as Hb.
  { intros. symmetry. by apply bucket_at_deep. }
  unfold _imageVolumeModifiedHandler. rewrite Hr. simpl.
  rewrite list.Forall_forall in Htyped.
  destruct (obj_get f r) as [fl|] eqn:Hf.
  2:{ exists h. split_and!; try done.
      - intros l (root & fl & o & T & la & xs & Hroot & Hfl & _).
        congruence.
      - intros T. rewrite Hb. unfold bucket_at. rewrite Hr. simpl.
        by rewrite Hf. }
  destruct (Htyped _ (obj_get_Some_elem _ _ _ Hf)) as (o & Ho & Hom).
  simpl in Ho, Hom. rewrite Ho. simpl.
  rewrite (invalidate_tools_all fl o); [|done|].
  2:{ apply list.Forall_forall. intros k [la Hla]%Object_keys_elem%obj_get_is_Some.
      rewrite list.Forall_forall in Hom.
      destruct (Hom _ (obj_get_Some_elem _ _ _ Hla)) as (xs & Hxs & Hlt).
      by exists la, xs. }
  set (L := locs_under h o (Object_keys o)).
  assert (∀ l, l ∈ L ↔ stored_under h m f l) as HL.
  { intros l. unfold L. rewrite elem_locs_under. split.
    - intros (k & la & xs & _ & Hla & Hxs & Hin).
      by exists r, fl, o, k, la, xs.
    - intros (root & fl' & o' & T & la & xs & Hroot & Hfl & Ho' & Hla & Hxs
              & Hin).
      simplify_eq. exists T, la, xs. split_and!; try done.
      apply Object_keys_elem, obj_get_is_Some. eauto. }
  eexists. split; [done|]. simpl. split_and!; try done.
  - intros l Hl. rewrite invalidate_all_lookup.
    by rewrite decide_True by (by apply HL).
  - intros l Hl. rewrite invalidate_all_lookup.
    by rewrite decide_False by (by rewrite HL).
  - intros T. rewrite Hb. unfold bucket_at. simpl. rewrite Hr. simpl.
    rewrite Hf. simpl. rewrite Ho. simpl.
    destruct (obj_get T o) as [la|] eqn:HT; [|done]. simpl.
    rewrite list.Forall_forall in Hom.
    destruct (Hom _ (obj_get_Some_elem _ _ _ HT)) as (xs & Hxs & _).
    simpl in Hxs. unfold deep_annotations. simpl. rewrite Hxs. simpl.
    rewrite <-mapM_fmap_invalidate.
    apply Forall_mapM_ext, list.Forall_forall. intros x Hx.
    rewrite invalidate_all_lookup. rewrite decide_True; [done|].
    apply HL. by exists r, fl, o, T, la, xs.
  - intros Hmeta F T HF.
    destruct (deep_state_matches _ _ _ Hdeep Hmeta) as (r' & Hr' & Hmatch).
    simplify_eq. rewrite list.Forall_forall in Hmatch.
    rewrite Hb. unfold bucket_at. simpl. rewrite Hr. simpl.
    destruct (obj_get F r) as [fl'|] eqn:HFl; [|done]. simpl.
    destruct (Hmatch _ (obj_get_Some_elem _ _ _ HFl)) as (o' & Ho' & Hom').
    simpl in Ho', Hom'. rewrite Ho'. simpl.
    destruct (obj_get T o') as [la'|] eqn:HT; [|done]. simpl.
    rewrite list.Forall_forall in Hom'.
    destruct (Hom' _ (obj_get_Some_elem _ _ _ HT)) as (xs' & Hxs' & Hm').
    simpl in Hxs'. unfold deep_annotations. simpl. rewrite Hxs'. simpl.
    apply Forall_mapM_ext, list.Forall_forall. intros x Hx.
    rewrite invalidate_all_lookup. rewrite decide_False; [done|].
    intros (root & fl0 & o0 & T0 & la0 & xs0 & Hroot & Hfl0 & Ho0 & Hla0
            & Hxs0 & Hin)%HL.
    simplify_eq.
    destruct (Hmatch _ (obj_get_Some_elem _ _ _ Hf)) as (o1 & Ho1 & Hom1).
    simpl in Ho1, Hom1. simplify_eq.
    rewrite list.Forall_forall in Hom1.
    destruct (Hom1 _ (obj_get_Some_elem _ _ _ Hla0)) as (xs1 & Hxs1 & Hm1).
    simpl in Hxs1. simplify_eq.
    unfold anns_match in Hm1, Hm'. rewrite list.Forall_forall in Hm1, Hm'.
    destruct (Hm1 _ Hin) as (a & Ha & Haf).
    destruct (Hm' _ Hx) as (a' & Ha' & HaF). congruence.
Qed.

Global Instance grows_refl : Reflexive grows.
Proof. by intros h. Qed.
Global Instance grows_trans : Transitive grows.
Proof.
  intros h1 h2 h3 (?&?&?&?) (?&?&?&?). repeat split; by etrans.
Qed.

Lemma grows_preserves h h1 : grows h h1 → preserves h h1.
Proof.
  intros (?&?&?&?). repeat split; intros l v Hl; by eapply prefix_lookup_Some.
Qed.

Lemma grows_length h h1 :
  grows h h1 →
  length (anns h) ≤ length (anns h1) ∧ length (arrs h) ≤ length (arrs h1)
  ∧ length (frames h) ≤ length (frames h1)
  ∧ length (states h) ≤ length (states h1).
Proof. intros (?&?&?&?). repeat split; by apply prefix_length. Qed.

Lemma fresh_annotations_mono h0 h0' h1 h1' la :
  grows h0 h0' → grows h1 h1' →
  fresh_annotations h0' h1 la → fresh_annotations h0 h1' la.
Proof.
  intros Hg0%grows_length Hg1%grows_preserves (Hla & xs & Hxs & Hf).
  split; [lia|]. exists xs. split; [by apply Hg1|].
  revert Hf. apply Forall_impl. intros x. lia.
Qed.

Lemma fresh_frame_mono h0 h0' h1 h1' fl :
  grows h0 h0' → grows h1 h1' →
  fresh_frame h0' h1 fl → fresh_frame h0 h1' fl.
Proof.
  intros Hg0 Hg1 (Hfl & o & Ho & Hf).
  split; [apply grows_length in Hg0; lia|]. exists o.
  split; [by apply grows_preserves in Hg1 as (_ & _ & Hp & _); apply Hp|].
  revert Hf. apply Forall_impl. intros kv. by apply fresh_annotations_mono.
Qed.

Lemma cloneDeep_each_spec xs h b :
  mapM (λ x, anns h !! x) xs = Some b →
  ∃ xs' h1,
    cloneDeep_each xs h = Done (xs', h1)
    ∧ grows h h1 ∧ arrs h1 = arrs h ∧ frames h1 = frames h
    ∧ states h1 = states h
    ∧ mapM (λ x, anns h1 !! x) xs' = Some b
    ∧ Forall (λ x, length (anns h) ≤ x) xs'.
Proof.
  revert h b. induction xs as [|x xs IH]; intros h b Hb; simpl in *.
  { simplify_eq. by exists [], h. }
  destruct (anns h !! x) as [a|] eqn:Hx; [|done]. simpl in *.
  destruct (mapM _ xs) as [b'|] eqn:Hb'; [|done]. simplify_eq/=.
  set (h1 := with_anns (anns h ++ [a]) h).
  assert (grows h h1) as Hg.
  { split_and!; try done. by apply prefix_app_r. }
  destruct (IH h1 b') as (xs' & h2 & -> & Hg2 & Harr & Hfr & Hst & Hb2 & Hfresh).
  { rewrite <-Hb'. apply Forall_mapM_ext. apply mapM_Some in Hb'.
    clear -Hb' Hg. apply grows_preserves in Hg as (Hp & _).
    induction Hb'; constructor; [|done]. rewrite H. by apply Hp. }
  exists (length (anns h) :: xs'), h2. simpl. split_and!; try done.
  - by etrans.
  - rewrite Hb2. simpl.
    apply grows_preserves in Hg2 as (Hp & _).
    rewrite (Hp (length (anns h)) a); [done|]. simpl.
    by rewrite lookup_app_r, Nat.sub_diag.
  - constructor; [done|]. revert Hfresh. apply Forall_impl. intros y. simpl.
    rewrite length_app. simpl. lia.
Qed.

Lemma cloneDeep_annotations_spec la h b :
  deep_annotations h la = Some b →
  ∃ la' h1,
    cloneDeep_annotations la h = Done (la', h1)
    ∧ grows h h1 ∧ frames h1 = frames h ∧ states h1 = states h
    ∧ deep_annotations h1 la' = Some b
    ∧ fresh_annotations h h1 la'.
Proof.
  unfold deep_annotations, cloneDeep_annotations. intros Hb.
  destruct (arrs h !! la) as [xs|] eqn:Hxs; [|done]. simpl in *.
  destruct (cloneDeep_each_spec xs h b Hb)
    as (xs' & h1 & -> & Hg & Harr & Hfr & Hst & Hb1 & Hfresh).
  simpl. eexists _, _. split; [done|]. simpl.
  rewrite Harr, lookup_app_r, Nat.sub_diag by done. simpl.
  split_and!; try done.
  - destruct Hg as (? & ? & ? & ?). split_and!; try done.
    simpl. by apply prefix_app_r.
  - split; [done|]. exists xs'. simpl.
    by rewrite lookup_app_r, Nat.sub_diag.
Qed.

Lemma cloneDeep_tools_spec (o : obj loc) h f :
  mapM (λ kv, (λ v, (kv.1, v)) <$> deep_annotations h kv.2) o = Some f →
  ∃ (o' : obj loc) h1,
    cloneDeep_tools o h = Done (o', h1)
    ∧ grows h h1 ∧ frames h1 = frames h ∧ states h1 = states h
    ∧ mapM (λ kv, (λ v, (kv.1, v)) <$> deep_annotations h1 kv.2) o' = Some f
    ∧ Forall (λ kv, fresh_annotations h h1 kv.2) o'.
Proof.
  revert h f. induction o as [|[k la] o IH]; intros h f Hf.
  { simpl in *. simplify_eq. by exists [], h. }
  simpl in Hf.
  destruct (deep_annotations h la) as [b|] eqn:Hb; [|done]. simpl in Hf.
  destruct (mapM _ o) as [f'|] eqn:Hf'; [|done]. injection Hf as <-.
  destruct (cloneDeep_annotations_spec la h b Hb)
    as (la' & h1 & Hc & Hg & Hfr & Hst & Hb1 & Hfresh).
  cbn [cloneDeep_tools]. rewrite Hc. simpl.
  destruct (IH h1 f') as (o' & h2 & -> & Hg2 & Hfr2 & Hst2 & Hf2 & Hfresh2).
  { rewrite <-Hf'. apply Forall_mapM_ext. apply mapM_Some in Hf'.
    clear -Hf' Hg. apply grows_preserves in Hg.
    induction Hf' as [|[k la] [k' b] o f Hx _ IH]; constructor; [|done].
    simpl in *. destruct (deep_annotations h la) as [b'|] eqn:E; [|done].
    by rewrite (deep_annotations_preserved h h1 la b'). }
  exists ((k, la') :: o'), h2. simpl. split_and!; try done.
  - by etrans.
  - congruence.
  - congruence.
  - rewrite Hf2. simpl.
    by rewrite (deep_annotations_preserved h1 h2 la' b
                  (grows_preserves _ _ Hg2) Hb1).
  - constructor.
    + simpl. by apply (fresh_annotations_mono h h h1 h2).
    + revert Hfresh2. apply Forall_impl. intros kv.
      by apply fresh_annotations_mono.
Qed.

Lemma cloneDeep_frame_spec fl h f :
  deep_frame h fl = Some f →
  ∃ fl' h1,
    cloneDeep_frame fl h = Done (fl', h1)
    ∧ grows h h1 ∧ states h1 = states h
    ∧ deep_frame h1 fl' = Some f
    ∧ fresh_frame h h1 fl'.
Proof.
  unfold deep_frame, cloneDeep_frame. intros Hf.
  destruct (frames h !! fl) as [o|] eqn:Ho; [|done]. simpl in *.
  destruct (cloneDeep_tools_spec o h f Hf)
    as (o' & h1 & -> & Hg & Hfr & Hst & Hf1 & Hfresh).
  simpl. eexists _, _. split; [done|]. simpl.
  rewrite Hfr, lookup_app_r, Nat.sub_diag by done. simpl.
  assert (grows h1 (with_frames (frames h ++ [o']) h1)) as Hg1.
  { split_and!; try done. simpl. rewrite Hfr. by apply prefix_app_r. }
  split_and!; try done.
  - by etrans.
  - split; [done|]. exists o'. simpl.
    rewrite lookup_app_r, Nat.sub_diag by done. split; [done|].
    revert Hfresh. apply Forall_impl. intros kv.
    by apply fresh_annotations_mono.
Qed.

Lemma cloneDeep_frames_spec (o : obj loc) h t :
  mapM (λ kv, (λ v, (kv.1, v)) <$> deep_frame h kv.2) o = Some t →
  ∃ (o' : obj loc) h1,
    cloneDeep_frames o h = Done (o', h1)
    ∧ grows h h1 ∧ states h1 = states h
    ∧ mapM (λ kv, (λ v, (kv.1, v)) <$> deep_frame h1 kv.2) o' = Some t
    ∧ Forall (λ kv, fresh_frame h h1 kv.2) o'.
Proof.
  revert h t. induction o as [|[k fl] o IH]; intros h t Ht.
  { simpl in *. simplify_eq. by exists [], h. }
  simpl in Ht.
  destruct (deep_frame h fl) as [f|] eqn:Hf; [|done]. simpl in Ht.
  destruct (mapM _ o) as [t'|] eqn:Ht'; [|done]. injection Ht as <-.
  destruct (cloneDeep_frame_spec fl h f Hf)
    as (fl' & h1 & Hc & Hg & Hst & Hf1 & Hfresh).
  cbn [cloneDeep_frames]. rewrite Hc. simpl.
  destruct (IH h1 t') as (o' & h2 & -> & Hg2 & Hst2 & Ht2 & Hfresh2).
  { rewrite <-Ht'. apply Forall_mapM_ext. apply mapM_Some in Ht'.
    clear -Ht' Hg. apply grows_preserves in Hg.
    induction Ht' as [|[k la] [k' b] o f Hx _ IH]; constructor; [|done].
    simpl in *. destruct (deep_frame h la) as [b'|] eqn:E; [|done].
    by rewrite (deep_frame_preserved h h1 la b'). }
  exists ((k, fl') :: o'), h2. simpl. split_and!; try done.
  - by etrans.
  - congruence.
  - rewrite Ht2. simpl.
    by rewrite (deep_frame_preserved h1 h2 fl' f
                  (grows_preserves _ _ Hg2) Hf1).
  - constructor.
    + simpl. by apply (fresh_frame_mono h h h1 h2).
    + revert Hfresh2. apply Forall_impl. intros kv.
      by apply fresh_frame_mono.
Qed.

Lemma cloneDeep_state_spec sl h t :
  deep_state h sl = Some t →
  ∃ sl' h1,
    cloneDeep_state sl h = Done (sl', h1)
    ∧ grows h h1
    ∧ deep_state h1 sl' = Some t
    ∧ fresh_state h h1 sl'.
Proof.
  unfold deep_state, cloneDeep_state. intros Ht.
  destruct (states h !! sl) as [o|] eqn:Ho; [|done]. simpl in *.
  destruct (cloneDeep_frames_spec o h t Ht)
    as (o' & h1 & -> & Hg & Hst & Ht1 & Hfresh).
  simpl. eexists _, _. split; [done|]. simpl.
  rewrite Hst, lookup_app_r, Nat.sub_diag by done. simpl.
  assert (grows h1 (with_states (states h ++ [o']) h1)) as Hg1.
  { split_and!; try done. simpl. rewrite Hst. by apply prefix_app_r. }
  split_and!; try done.
  - by etrans.
  - split; [done|]. exists o'. simpl.
    rewrite lookup_app_r, Nat.sub_diag by done. split; [done|].
    revert Hfresh. apply Forall_impl. intros kv.
    by apply fresh_frame_mono.
Qed.

Lemma fresh_state_cells h h1 e :
  fresh_state h h1 e →
  length (states h) ≤ e
  ∧ Forall (λ fl, length (frames h) ≤ fl) (frames_of h1 e)
  ∧ Forall (λ la, length (arrs h) ≤ la) (arrs_of h1 e)
  ∧ Forall (λ x, length (anns h) ≤ x) (anns_of h1 e).
Proof.
  intros (He & r & Hr & Hfr). split; [done|].
  unfold anns_of, arrs_of, frames_of. rewrite Hr. simpl. clear Hr.
  induction Hfr as [|[k fl] r (Hfl & o & Ho & Hf) _ (IH1 & IH2 & IH3)].
  { by split_and!. }
  rewrite fmap_cons, !bind_cons, bind_app. simpl in *. rewrite Ho. simpl.
  split_and!.
  - by constructor.
  - apply Forall_app. split; [|done]. clear -Hf.
    induction Hf as [|[k la] o (Hla & _) _ IH]; simpl; by constructor.
  - apply Forall_app. split; [|done]. clear -Hf.
    induction Hf as [|[k la] o (Hla & xs & Hxs & Hx) _ IH]; [done|].
    rewrite fmap_cons, bind_cons.
    apply Forall_app. split; [|done]. simpl in *. by rewrite Hxs.
Qed.

(** C5: [saveAnnotations] without arguments returns a structure whose deep
    value is that of the store; [restoreAnnotations] of it into a new
    manager gives a store of the same deep value; and whatever is done
    afterwards to the cells of the exported structure, the deep value of
    the store stays what it was. *)
Theorem export_import_round_trip h m t :
  deep_state h (annotations m) = Some t →
  ∃ e h1,
    saveAnnotations m None None h = Done (Some (RefState e), h1)
    ∧ deep_state h1 e = Some t
    ∧ (∀ uid', ∃ m2 h2,
         restoreAnnotations (create uid' h1).1 (RefState e) None None
           (create uid' h1).2 = Done (m2, h2)
         ∧ deep_state h2 (annotations m2) = Some t)
    ∧ (∀ h', mutated_within h1 e h' →
         deep_state h' (annotations m) = Some t).
Proof.
  intros Hdeep.
  destruct (cloneDeep_state_spec _ _ _ Hdeep) as (e & h1 & Hc & Hg & He & Hfresh).
  exists e, h1. split_and!.
  - unfold saveAnnotations. pose proof Hdeep as Hd. unfold deep_state in Hd.
    destruct (states h !! annotations m); [|done]. simpl. by rewrite Hc.
  - done.
  - intros uid'. unfold create, restoreAnnotations. simpl.
    rewrite lookup_app_r, Nat.sub_diag by done. simpl.
    set (h1' := with_states (states h1 ++ [[]]) h1).
    assert (preserves h1 h1') as Hp.
    { split_and!; try done. intros l v Hl. simpl.
      rewrite lookup_app_l; [done|]. by eapply lookup_lt_Some. }
    destruct (cloneDeep_state_spec e h1' t) as (l & h2 & -> & _ & Hl & _).
    { by eapply deep_state_preserved. }
    simpl. eauto.
  - intros h' (Hs & Hf & Har & Han).
    apply fresh_state_cells in Hfresh as (Hfs & Hff & Hfar & Hfan).
    rewrite list.Forall_forall in Hff, Hfar, Hfan.
    apply grows_preserves in Hg as (Hpa & Hpr & Hpf & Hps).
    eapply (deep_state_preserved h h'); [|done].
    split_and!; intros l v Hl; pose proof (lookup_lt_Some _ _ _ Hl).
    + apply Han; [|by apply Hpa]. intros ?%Hfan. lia.
    + apply Har; [|by apply Hpr]. intros ?%Hfar. lia.
    + apply Hf; [|by apply Hpf]. intros ?%Hff. lia.
    + apply Hs; [|by apply Hps]. lia.
Qed.





Section completion.
Context `{Externals}.







End completion.


(** ** Drag samples *)
Section drag.
Context `{Externals}.





End drag.

(** With no filter, the lookup of an identifier that no stored record
    carries returns nothing, and its removal leaves the heap as it is. *)
Theorem unfiltered_miss_returns h m u t :
  deep_state h (annotations m) = Some t →
  u ∉ uids_of t →
  getAnnotation m u no_filter h = Done None
  ∧ removeAnnotation m u no_filter h = Done h.
Proof.
  intros Hdeep Hu.
  destruct (deep_state_lacks _ _ _ _ Hdeep Hu) as (root & Hroot & Hlack).
  assert (_getToolSpecificAnnotationsAndIndex m u no_filter h = Done None)
    as Hfind.
  { unfold _getToolSpecificAnnotationsAndIndex. rewrite Hroot. simpl.
    apply scan_frames_lack; [done|].
    intros k Hk. by apply Object_keys_elem. }
  unfold getAnnotation, removeAnnotation. by rewrite Hfind.
Qed.


(** C6: with a frame-of-reference filter, and with a frame-of-reference
    and a tool-name filter, [restoreAnnotations] stores the object that the
    caller passed and not a copy of it: the store reads back the caller's
    own object, and no record, array or frame object is allocated. *)
Theorem filtered_restore_keeps_callers_object h m root f :
  states h !! annotations m = Some root →
  f ≠ EmptyString →
  (∀ fl,
     ∃ h',
       restoreAnnotations m (RefFrame fl) (Some f) None h = Done (m, h')
       ∧ getFrameOfReferenceAnnotations m f h' = Done (Some fl)
       ∧ anns h' = anns h ∧ arrs h' = arrs h ∧ frames h' = frames h)
  ∧ (∀ la t fl0 (o : obj loc),
       t ≠ EmptyString →
       obj_get f root = Some fl0 → frames h !! fl0 = Some o →
       ∃ h',
         restoreAnnotations m (RefAnnotations la) (Some f) (Some t) h
         = Done (m, h')
         ∧ get m f t h' = Done (Some la)
         ∧ anns h' = anns h ∧ arrs h' = arrs h ∧ states h' = states h).
Proof.
  intros Hroot Hf.
  pose proof (lookup_lt_Some _ _ _ Hroot) as Hlt.
  assert (truthy (Some f) = Some f) as Htf by (by destruct f).
  simpl in Htf.
  split.
  - intros fl. eexists. unfold restoreAnnotations. rewrite Hroot. simpl.
    rewrite Htf. split; [reflexivity|].
    unfold getFrameOfReferenceAnnotations, put_state. simpl.
    rewrite list_lookup_insert_eq by done. simpl.
    by rewrite obj_get_set_eq.
  - intros la t fl0 o Ht Hfl0 Ho.
    pose proof (lookup_lt_Some _ _ _ Ho) as Hlt0.
    assert (truthy (Some t) = Some t) as Htt by (by destruct t).
    simpl in Htt.
    eexists. unfold restoreAnnotations. rewrite Hroot. simpl.
    rewrite Htf, Htt, Hfl0. simpl. rewrite Ho. simpl.
    split; [reflexivity|].
    unfold get, put_frame. simpl. rewrite Hroot. simpl. rewrite Hfl0.
    rewrite list_lookup_insert_eq by done. simpl.
    by rewrite obj_get_set_eq.
Qed.

(** * Concrete runs *)
Section concrete.
Import Scenario.



(** The buffers of the scenarios are what the gestures record. *)
Lemma crossing_buffer_drawn :
  drawn (config 1) crossing_drags ≫= (λ w, Done (coords2 <$> buffer w))
  = Done (coords2 <$> crossing_buffer).
Proof. vm_compute. reflexivity. Qed.

Lemma retraced_buffer_drawn :
  drawn (config 1) retraced_drags ≫= (λ w, Done (coords2 <$> buffer w))
  = Done (coords2 <$> retraced_buffer).
Proof. vm_compute. reflexivity. Qed.





(** The store of four records, and an identifier that none carries. *)
Lemma unfiltered_miss_returns_witness :
  let m := (stored volumes).1 in
  let h := (stored volumes).2 in
  deep_state h (annotations m) = Some volumes_state
  ∧ (Some "u9" ∉ uids_of volumes_state)
  ∧ getAnnotation m (Some "u9") no_filter h = Done None
  ∧ removeAnnotation m (Some "u9") no_filter h = Done h.
Proof.
  intros m h.
  assert (Some "u9" ∉ uids_of volumes_state) as Hu.
  { apply (bool_decide_unpack _). vm_compute. exact I. }
  split; [reflexivity|]. split; [exact Hu|].
  apply (unfiltered_miss_returns h m (Some "u9") volumes_state eq_refl Hu).
Defined.




(** The store of four records: emptying an array of the export changes
    the export and not the store. *)
Lemma export_import_round_trip_witness :
  let m := (stored volumes).1 in
  let h := (stored volumes).2 in
  deep_state h (annotations m) = Some volumes_state
  ∧ ∃ e h1,
      saveAnnotations m None None h = Done (Some (RefState e), h1)
      ∧ deep_state h1 e = Some volumes_state
      ∧ (∃ m2 h2,
           restoreAnnotations (create "OTHER" h1).1 (RefState e) None None
             (create "OTHER" h1).2 = Done (m2, h2)
           ∧ deep_state h2 (annotations m2) = Some volumes_state)
      ∧ bucket_of <$> deep_state (put_arr 3 [] h1) e
        ≠ bucket_of <$> Some volumes_state
      ∧ deep_state (put_arr 3 [] h1) (annotations m) = Some volumes_state.
Proof.
  intros m h.
  split; [reflexivity|].
  destruct (export_import_round_trip h m volumes_state eq_refl)
    as (e & h1 & Hsave & Hdeep & Hrestore & Halias).
  exists e, h1. split_and!; [exact Hsave|exact Hdeep|apply Hrestore| |].
  - vm_compute in Hsave. injection Hsave as <- <-.
    intros Heq. apply (f_equal (λ g, g ≫= λ b, b "F1" "Length")) in Heq.
    vm_compute in Heq. discriminate Heq.
  - apply Halias.
    vm_compute in Hsave. injection Hsave as <- <-.
    split_and!; try (intros l v _ Hl; exact Hl).
    intros l v Hl Hv. unfold put_arr, with_arrs. cbn [arrs].
    rewrite list_lookup_insert_ne; [exact Hv|].
    intros <-. apply Hl. vm_compute. apply list_elem_of_here.
Defined.

(** What the caller does to its data after the call shows in the store. *)
Lemma filtered_restore_keeps_callers_object_witness :
  let m := (stored [record "a1" "F1" "Length" None]).1 in
  let '(la, fl, h) :=
    callers_data (stored [record "a1" "F1" "Length" None]).2 in
  states h !! annotations m = Some [("F1", 0)]
  ∧ frames h !! 0 = Some [("Length", 0)]
  ∧ (∃ h',
       restoreAnnotations m (RefFrame fl) (Some "F1") None h = Done (m, h')
       ∧ getFrameOfReferenceAnnotations m "F1" h' = Done (Some fl)
       ∧ bucket_at h' m "F1" "Length"
         = Some [record "b1" "F1" "Length" None]
       ∧ bucket_at (put_frame fl [] h') m "F1" "Length" = None)
  ∧ (∃ h',
       restoreAnnotations m (RefAnnotations la) (Some "F1") (Some "Length") h
       = Done (m, h')
       ∧ get m "F1" "Length" h' = Done (Some la)
       ∧ bucket_at h' m "F1" "Length"
         = Some [record "b1" "F1" "Length" None]
       ∧ bucket_at (put_arr la [] h') m "F1" "Length" = Some []).
Proof.
  simpl.
  set (m := (stored [record "a1" "F1" "Length" None]).1).
  set (h := (callers_data (stored [record "a1" "F1" "Length" None]).2).2).
  destruct (filtered_restore_keeps_callers_object h m [("F1", 0)] "F1"
              eq_refl ltac:(done)) as [Hframe Htool].
  split; [reflexivity|]. split; [reflexivity|]. split.
  - destruct (Hframe 1) as (h' & Hrun & Hget & _).
    exists h'. split; [exact Hrun|]. split; [exact Hget|].
    vm_compute in Hrun. injection Hrun as <-.
    split; vm_compute; reflexivity.
  - destruct (Htool 1 "Length" 0 [("Length", 0)] ltac:(done) eq_refl eq_refl)
      as (h' & Hrun & Hget & _).
    exists h'. split; [exact Hrun|]. split; [exact Hget|].
    vm_compute in Hrun. injection Hrun as <-.
    split; vm_compute; reflexivity.
Defined.






Lemma volumes_state_metadata : metadata_match volumes_state.
Proof.
  unfold metadata_match, volumes_state.
  repeat (apply list.Forall_cons; split); try apply Forall_nil; reflexivity.
Qed.

(** Three records under F1 with [invalidated = false], one under F2. *)
Lemma volume_modified_invalidates_witness :
  let m := (stored volumes).1 in
  let h := (stored volumes).2 in
  deep_state h (annotations m) = Some volumes_state
  ∧ ∃ h',
      _imageVolumeModifiedHandler m "F1" h = Done h'
      ∧ bucket_at h' m "F1" "Length"
        = Some [added_record (record "a1" "F1" "Length" (Some true));
                added_record (record "a2" "F1" "Length" (Some true))]
      ∧ bucket_at h' m "F1" "Probe"
        = Some [added_record (record "a3" "F1" "Probe" (Some true))]
      ∧ bucket_at h' m "F2" "Length"
        = Some [added_record (record "b1" "F2" "Length" (Some false))].
Proof.
  intros m h. split; [reflexivity|].
  destruct (volume_modified_invalidates h m "F1" volumes_state eq_refl)
    as (h' & Hrun & _ & _ & _ & _ & _ & Hf & Hother).
  exists h'. split; [exact Hrun|].
  split_and!; [by rewrite Hf|by rewrite Hf|].
  by rewrite (Hother volumes_state_metadata).
Defined.

End concrete.
